(** * dns-orchestrator: record cache, search debounce, restore poller, account deletion

    A shallow embedding of the client-side state management of the
    dns-orchestrator front end, and the properties its specification states
    about it.

    - [DnsStore]: the per-key record cache with its fetch sequencer
      (the store module [stores/dnsStore.ts] is not among the sources; it is
      modelled from the specification, sections 3, 4.1 and 4.3).
    - [DnsRecordTable]: the view component
      [src/components/dns/DnsRecordTable.tsx]: debounced search, filter
      buttons, the infinite-scroll observer and the sorted projection.
    - [AccountStore]: the zustand account store (actions [fetchAccounts],
      [deleteAccount], [checkRestoreStatus]) run by an explicit event loop:
      every [await] is a suspension point, every timer tick and every settled
      promise is one event. *)

From Stdlib Require Import ZArith Lia Permutation Sorted Ascii.
From stdpp Require Import gmap strings list fin_maps.

(** The empty string literal of the TypeScript sources. *)
Definition empty_str : string := EmptyString.

(* ===================================================================== *)
(** * The record cache and its fetch sequencer                             *)
(* ===================================================================== *)

Module DnsStore.

(** A DNS record as the table reads it ([a.id], [a.type], [a.name],
    [a.value], [a.ttl]); [ttl] is a JavaScript number holding an integer. *)
Record DnsRecord := mkDnsRecord {
  rec_id : string;
  rec_type : string;
  rec_name : string;
  rec_value : string;
  rec_ttl : Z
}.

(** RecordCacheKey: the pair (accountId, domainId). *)
Abbreviation RecordCacheKey := (string * string)%type.

(** The two kinds of fetch. A full fetch carries the filters it was issued
    with, so that an accepted commit can echo them. *)
Inductive FetchKind :=
| Full (keyword type : string)
| Append.

Definition is_full (k : FetchKind) : bool :=
  match k with Full _ _ => true | Append => false end.

(** Modelled from the spec: the token of section 4.1 ([beginFetch(key) ->
    token]), which captures the [loadGeneration] at issue time. *)
Record Token := mkToken {
  tk_key : RecordCacheKey;
  tk_gen : nat;
  tk_kind : FetchKind
}.

(** The payload of [list_records] (section 6). *)
Record PageResult := mkPage {
  items : list DnsRecord;
  res_totalCount : nat;
  nextCursor : nat;
  res_hasMore : bool
}.

(** Modelled from the spec: the DomainRecordCache of section 3, with the two
    in-flight flags that section 6 exposes to the views ([isLoading],
    [isLoadingMore]). *)
Record DomainRecordCache := mkCache {
  records : list DnsRecord;
  filterKeyword : string;
  filterType : string;
  pageCursor : nat;
  totalCount : nat;
  hasMore : bool;
  loadGeneration : nat;
  isLoading : bool;
  isLoadingMore : bool
}.

Definition emptyCache : DomainRecordCache :=
  mkCache [] empty_str empty_str 0 0 false 0 false false.

(** The controller owns one cache per key and knows the active key. *)
Record Controller := mkController {
  activeKey : option RecordCacheKey;
  caches : gmap RecordCacheKey DomainRecordCache
}.

Definition initController : Controller := mkController None ∅.

Definition cacheOf (key : RecordCacheKey) (st : Controller) : DomainRecordCache :=
  default emptyCache (caches st !! key).

Definition setCache (key : RecordCacheKey) (c : DomainRecordCache)
    (st : Controller) : Controller :=
  mkController (activeKey st) (<[key := c]> (caches st)).

(** Modelled from the spec: switching the active key (section 3). *)
Definition switchKey (key : RecordCacheKey) (st : Controller) : Controller :=
  mkController (Some key) (caches st).

(** Modelled from the spec: [loadFull(key, keyword, type)] of section 4.3, up
    to its suspension point: it increments [loadGeneration], clears [records]
    and issues the fetch, whose token is returned. A new full fetch
    supersedes an in-flight append (section 3), so [isLoadingMore] is reset. *)
Definition loadFull (key : RecordCacheKey) (keyword type : string)
    (st : Controller) : Controller * Token :=
  let c := cacheOf key st in
  let g := S (loadGeneration c) in
  (setCache key
     (mkCache [] (filterKeyword c) (filterType c) (pageCursor c)
        (totalCount c) (hasMore c) g true false) st,
   mkToken key g (Full keyword type)).

(** Modelled from the spec: [loadMore(key)] of section 4.3, up to its
    suspension point: a no-op if [hasMore] is false or a full or append fetch
    is in flight, otherwise the fetch of the next page is issued. In the
    sources this is the store action [fetchMoreRecords]. *)
Definition fetchMoreRecords (key : RecordCacheKey) (st : Controller)
    : Controller * option Token :=
  let c := cacheOf key st in
  if negb (hasMore c) || isLoading c || isLoadingMore c then (st, None)
  else
    (setCache key
       (mkCache (records c) (filterKeyword c) (filterType c) (pageCursor c)
          (totalCount c) (hasMore c) (loadGeneration c) (isLoading c) true) st,
     Some (mkToken key (loadGeneration c) Append)).

(** The gate of section 4.1: a result is discarded if the cache's generation
    has advanced past the token's, or if the key is no longer the active one. *)
Definition accepts (tok : Token) (st : Controller) : bool :=
  match caches st !! tk_key tok with
  | None => false
  | Some c =>
      negb (tk_gen tok <? loadGeneration c)
      && bool_decide (activeKey st = Some (tk_key tok))
  end.

(** The merge of an accepted result: a full fetch replaces, an append fetch
    appends. *)
Definition merge (kind : FetchKind) (res : PageResult)
    (c : DomainRecordCache) : DomainRecordCache :=
  match kind with
  | Full keyword type =>
      mkCache (items res) keyword type (nextCursor res) (res_totalCount res)
        (res_hasMore res) (loadGeneration c) false (isLoadingMore c)
  | Append =>
      mkCache (records c ++ items res) (filterKeyword c) (filterType c)
        (nextCursor res) (totalCount c) (res_hasMore res) (loadGeneration c)
        (isLoading c) false
  end.

(** Modelled from the spec: [commit(token, key, result) -> accepted] of
    section 4.1. *)
Definition commit (tok : Token) (res : PageResult) (st : Controller)
    : Controller * bool :=
  if accepts tok st
  then (setCache (tk_key tok) (merge (tk_kind tok) res (cacheOf (tk_key tok) st)) st,
        true)
  else (st, false).

(** Modelled from the spec: a failed fetch (section 7) leaves the cache
    contents untouched; the fetch it belonged to is no longer in flight. *)
Definition clearFlag (kind : FetchKind) (c : DomainRecordCache)
    : DomainRecordCache :=
  mkCache (records c) (filterKeyword c) (filterType c) (pageCursor c)
    (totalCount c) (hasMore c) (loadGeneration c)
    (if is_full kind then false else isLoading c)
    (if is_full kind then isLoadingMore c else false).

Definition fail (tok : Token) (st : Controller) : Controller :=
  if accepts tok st
  then setCache (tk_key tok) (clearFlag (tk_kind tok) (cacheOf (tk_key tok) st)) st
  else st.

(** What a view sees of a cache: everything but the generation counter. *)
Definition contents (c : DomainRecordCache) :=
  (records c, filterKeyword c, filterType c, pageCursor c, totalCount c,
   hasMore c, isLoading c, isLoadingMore c).

(** ** The controller with its outstanding requests *)

Global Instance FetchKind_eq_dec : EqDecision FetchKind.
Proof. solve_decision. Defined.

Global Instance Token_eq_dec : EqDecision Token.
Proof. solve_decision. Defined.

Inductive Response :=
| Ok (res : PageResult)
| Failed.

(** The intents a view issues and the responses of the transport. *)
Inductive Intent :=
| ILoadFull (key : RecordCacheKey) (keyword type : string)
| ILoadMore (key : RecordCacheKey)
| ISwitchKey (key : RecordCacheKey)
| IResponse (tok : Token) (r : Response).

Record Sys := mkSys {
  ctrl : Controller;
  inflight : list Token
}.

Definition initSys : Sys := mkSys initController [].

Fixpoint remove_first (t : Token) (l : list Token) : list Token :=
  match l with
  | [] => []
  | x :: l' => if decide (x = t) then l' else x :: remove_first t l'
  end.

Definition sys_step (s : Sys) (i : Intent) : Sys :=
  match i with
  | ILoadFull key keyword type =>
      let '(st, tok) := loadFull key keyword type (ctrl s) in
      mkSys st (tok :: inflight s)
  | ILoadMore key =>
      match fetchMoreRecords key (ctrl s) with
      | (st, Some tok) => mkSys st (tok :: inflight s)
      | (st, None) => mkSys st (inflight s)
      end
  | ISwitchKey key => mkSys (switchKey key (ctrl s)) (inflight s)
  | IResponse tok r =>
      if bool_decide (tok ∈ inflight s) then
        mkSys (match r with
               | Ok res => fst (commit tok res (ctrl s))
               | Failed => fail tok (ctrl s)
               end)
              (remove_first tok (inflight s))
      else s
  end.

Definition sys_run (s : Sys) (l : list Intent) : Sys := foldl sys_step s l.

(** An outstanding request is live when it has not been superseded: its
    generation is the current one of its key. *)
Definition live (full : bool) (key : RecordCacheKey) (st : Controller)
    (t : Token) : bool :=
  bool_decide (tk_key t = key)
  && Bool.eqb (is_full (tk_kind t)) full
  && (tk_gen t =? loadGeneration (cacheOf key st)).

Definition live_count (full : bool) (key : RecordCacheKey) (s : Sys) : nat :=
  length (List.filter (live full key (ctrl s)) (inflight s)).

(** The invariant of the controller: no outstanding token is newer than its
    cache; per key at most one live full fetch and one live append fetch are
    outstanding, and each is announced by its flag. *)
Definition inflight_inv (s : Sys) : Prop :=
  (∀ t, t ∈ inflight s → tk_gen t ≤ loadGeneration (cacheOf (tk_key t) (ctrl s)))
  ∧ ∀ key,
      live_count true key s ≤ 1
      ∧ live_count false key s ≤ 1
      ∧ (0 < live_count true key s → isLoading (cacheOf key (ctrl s)) = true)
      ∧ (0 < live_count false key s → isLoadingMore (cacheOf key (ctrl s)) = true).

End DnsStore.

(* ===================================================================== *)
(** * The record table view                                                *)
(* ===================================================================== *)

Module DnsRecordTable.

Inductive SortField := SortType | SortName | SortValue | SortTtl.

(** [SortDirection] is ["asc" | "desc" | null]; [null] is [None]. *)
Inductive SortDirection := Asc | Desc.

Record Props := mkProps {
  accountId : string;
  domainId : string
}.

(** The calls the view makes into the record store. [fetchRecords] is called
    with or without its two optional filter arguments. *)
Inductive StoreCall :=
| FetchRecords (accountId domainId : string) (keyword type : option string)
| FetchMoreRecords (accountId domainId : string).

(** The quiet period of [useDebouncedCallback(..., 300)], in milliseconds. *)
Definition DEBOUNCE_DELAY : nat := 300.

(** The component's local state ([useState]), the pending timer of
    [debouncedSearch] (its deadline and the last argument it was called
    with), the clock, and the calls made so far into the store. *)
Record View := mkView {
  searchInput : string;
  selectedType : string;
  sortField : option SortField;
  sortDirection : option SortDirection;
  debounce : option (nat * string);
  now : nat;
  calls : list StoreCall
}.

Definition initView : View := mkView empty_str empty_str None None None 0 [].

Section Handlers.
Variable p : Props.

Definition fetchRecords (keyword type : option string) (v : View) : View :=
  mkView (searchInput v) (selectedType v) (sortField v) (sortDirection v)
    (debounce v) (now v)
    (calls v ++ [FetchRecords (accountId p) (domainId p) keyword type]).

Definition setSearchInput (value : string) (v : View) : View :=
  mkView value (selectedType v) (sortField v) (sortDirection v)
    (debounce v) (now v) (calls v).

Definition setSelectedType (type : string) (v : View) : View :=
  mkView (searchInput v) type (sortField v) (sortDirection v)
    (debounce v) (now v) (calls v).

Definition setDebounce (d : option (nat * string)) (v : View) : View :=
  mkView (searchInput v) (selectedType v) (sortField v) (sortDirection v)
    d (now v) (calls v).

(** Calling the function returned by [useDebouncedCallback(f, wait)] of the
    use-debounce package (trailing edge, its default): the pending timer, if
    any, is cancelled and a new one is started, due [wait] ms from now; only
    the arguments of the last call are kept. *)
Definition debouncedSearch (keyword : string) (v : View) : View :=
  setDebounce (Some (now v + DEBOUNCE_DELAY, keyword)) v.

(** The debounced function itself: the hook invokes the callback of the
    latest render, so [selectedType] is read when the timer fires. *)
Definition fireDebounced (keyword : string) (v : View) : View :=
  fetchRecords (Some keyword) (Some (selectedType v)) (setDebounce None v).

(** [d] milliseconds pass without any user input: the pending timer fires
    if its deadline is reached. *)
Definition elapse (d : nat) (v : View) : View :=
  let v' :=
    match debounce v with
    | Some (deadline, keyword) =>
        if deadline <=? now v + d then fireDebounced keyword v else v
    | None => v
    end in
  mkView (searchInput v') (selectedType v') (sortField v') (sortDirection v')
    (debounce v') (now v + d) (calls v').

Definition handleSearchChange (value : string) (v : View) : View :=
  debouncedSearch value (setSearchInput value v).

Definition handleTypeChange (type : string) (v : View) : View :=
  let newType := if decide (selectedType v = type) then empty_str else type in
  fetchRecords (Some (searchInput v)) (Some newType) (setSelectedType newType v).

Definition clearFilters (v : View) : View :=
  fetchRecords (Some empty_str) (Some empty_str)
    (setSelectedType empty_str (setSearchInput empty_str v)).

(** A burst of keyword edits: the first one now, each later one after the
    given delay since the previous one. *)
Definition burst (first : string) (rest : list (nat * string)) (v : View) : View :=
  foldl (fun v e => handleSearchChange (snd e) (elapse (fst e) v))
        (handleSearchChange first v) rest.

Definition final_keyword (first : string) (rest : list (nat * string)) : string :=
  default first (last (map snd rest)).

(** The IntersectionObserver callback. [hasMore] and [isLoadingMore] are the
    store values captured by the render that created the callback; an entry
    is represented by its [isIntersecting] flag. *)
Definition handleObserver (hasMore isLoadingMore : bool) (entries : list bool)
    : option StoreCall :=
  match entries with
  | entry :: _ =>
      if entry && hasMore && negb isLoadingMore
      then Some (FetchMoreRecords (accountId p) (domainId p))
      else None
  | [] => None
  end.

End Handlers.

(** The observer callback run against the record store. *)
Definition observe (p : Props) (hasMore isLoadingMore : bool)
    (entries : list bool) (s : DnsStore.Sys) : DnsStore.Sys :=
  match handleObserver p hasMore isLoadingMore entries with
  | Some (FetchMoreRecords a d) => DnsStore.sys_step s (DnsStore.ILoadMore (a, d))
  | _ => s
  end.

(** ** The sorted projection

    Arrays are JavaScript objects: the store's [records] and the result of
    [sortedRecords] are references into a heap of arrays. *)

Abbreviation Heap := (gmap nat (list DnsStore.DnsRecord)).

Definition deref (h : Heap) (l : nat) : list DnsStore.DnsRecord :=
  default [] (h !! l).

(** [[...a]]: a new array with the elements of [a]. *)
Definition spread (a : nat) (h : Heap) : nat * Heap :=
  let l := fresh (dom h) in (l, <[l := deref h a]> h).

Section Sort.
(** [String.prototype.localeCompare] is the host's collation. *)
Variable localeCompare : string -> string -> Z.

(** The comparator handed to [sort]. *)
Definition compareRecords (field : SortField) (direction : SortDirection)
    (a b : DnsStore.DnsRecord) : Z :=
  match field with
  | SortTtl =>
      match direction with
      | Asc => DnsStore.rec_ttl a - DnsStore.rec_ttl b
      | Desc => DnsStore.rec_ttl b - DnsStore.rec_ttl a
      end
  | _ =>
      let proj :=
        match field with
        | SortType => DnsStore.rec_type
        | SortName => DnsStore.rec_name
        | _ => DnsStore.rec_value
        end in
      let comparison := localeCompare (proj a) (proj b) in
      match direction with
      | Asc => comparison
      | Desc => - comparison
      end
  end%Z.

(** [Array.prototype.sort(cmp)]: a stable sort, here by insertion; an element
    goes before the first one it does not compare greater than. *)
Fixpoint insert_by {A} (cmp : A -> A -> Z) (x : A) (l : list A) : list A :=
  match l with
  | [] => [x]
  | y :: l' => if (cmp x y <=? 0)%Z then x :: l else y :: insert_by cmp x l'
  end.

Definition sort_by {A} (cmp : A -> A -> Z) (l : list A) : list A :=
  foldr (insert_by cmp) [] l.

(** [a.sort(cmp)] sorts the array [a] in place and returns [a]. *)
Definition sort_in_place (cmp : DnsStore.DnsRecord -> DnsStore.DnsRecord -> Z)
    (a : nat) (h : Heap) : nat * Heap :=
  (a, <[a := sort_by cmp (deref h a)]> h).

Definition sortedRecords (sf : option SortField) (sd : option SortDirection)
    (records : nat) (h : Heap) : nat * Heap :=
  match sf, sd with
  | Some field, Some direction =>
      let '(copy, h1) := spread records h in
      sort_in_place (compareRecords field direction) copy h1
  | _, _ => (records, h)
  end.

End Sort.

(** A comparison of strings by code points, standing for the host's
    collation in the examples. *)
Definition codePointCompare (a b : string) : Z :=
  match String.compare a b with
  | Lt => (-1)%Z
  | Eq => 0%Z
  | Gt => 1%Z
  end.

End DnsRecordTable.

(* ===================================================================== *)
(** * The account store                                                    *)
(* ===================================================================== *)

Module AccountStore.

(** An account, with the fields the store reads ([a.id], [a.status]). *)
Record Account := mkAccount {
  acc_id : string;
  acc_name : string;
  acc_status : string
}.

Record ApiError := mkApiError { code : string }.

(** [ApiResponse<T>] of [src/types/index.ts]. *)
Record ApiResponse (T : Type) := mkResponse {
  success : bool;
  data : option T;
  api_error : option ApiError
}.
Arguments mkResponse {T} _ _ _.
Arguments success {T} _.
Arguments data {T} _.
Arguments api_error {T} _.

(** A thrown value. *)
Abbreviation Exn := string.

(** How the promise of [transport.invoke] settles. *)
Inductive Settled (T : Type) :=
| Resolved (value : T)
| Rejected (err : Exn).
Arguments Resolved {T} _.
Arguments Rejected {T} _.

(** Displayed messages; the message helpers of [@/lib/error] and the
    translations are kept symbolic. *)
Inductive Msg :=
| I18n (key : string)
| I18nCount (key : string) (count : nat)
| GetErrorMessage (e : option ApiError)
| ExtractErrorMessage (err : Exn).

Inductive Command :=
| ListAccounts
| DeleteAccount (accountId : string)
| IsRestoreCompleted.

Inductive Action :=
| FetchAccounts
| DeleteAccountOf (id : string)
| CheckRestoreStatus.

(** Everything an action does besides updating the store, in program order.
    [Invoke] is the only suspension point: the action continues when the
    request settles. [StoreSet] records a call of zustand's [set] with the
    fields it writes. *)
Inductive Effect :=
| Called (f : Action)
| Invoke (rid : nat) (c : Command)
| StoreSet (fields : list string)
| ClearAccountCache (id : string)
| RemoveRecentDomainsByAccount (id : string)
| ToastSuccess (m : Msg)
| ToastError (m : Msg)
| LoggerError (m : string) (err : Exn)
| SetInterval (timer ms : nat)
| ClearInterval (timer : nat)
| Returned (f : Action) (value : option bool)
| Threw (f : Action) (err : Exn).

(** What remains to be run of an action when a request settles. *)
Inductive Cont :=
| KFetchAccounts
| KDeleteAccount (id : string)
| KCheckRestoreStatus
| KPoll (poll : nat).

(** The fields of [AccountState] that the three actions read or write. *)
Record State := mkState {
  accounts : list Account;
  selectedAccountId : option string;
  isLoading : bool;
  isDeleting : bool;
  isRestoring : bool;
  error : option Msg
}.

(** The store, its two collaborators, and the event loop: the interval
    timers that are set, the requests that have not settled, and the trace
    of effects so far. *)
Record World := mkWorld {
  store : State;
  domainCaches : gmap DnsStore.RecordCacheKey DnsStore.DomainRecordCache;
  recentDomains : list DnsStore.RecordCacheKey;
  timers : gset nat;
  nextTimer : nat;
  pending : gmap nat Cont;
  nextReq : nat;
  trace : list Effect
}.

Definition initState : State := mkState [] None false false false None.

Definition initWorld : World := mkWorld initState ∅ [] ∅ 0 ∅ 0 [].

(** ** Primitive steps *)

Definition emit (e : Effect) (w : World) : World :=
  mkWorld (store w) (domainCaches w) (recentDomains w) (timers w) (nextTimer w)
    (pending w) (nextReq w) (trace w ++ [e]).

(** zustand's [set]: [fields] names the fields written. *)
Definition set_ (fields : list string) (f : State -> State) (w : World) : World :=
  emit (StoreSet fields)
    (mkWorld (f (store w)) (domainCaches w) (recentDomains w) (timers w)
       (nextTimer w) (pending w) (nextReq w) (trace w)).

(** [await transport.invoke(c)]: the request is sent and the rest of the
    action, [k], is suspended until it settles. *)
Definition invoke (c : Command) (k : Cont) (w : World) : World :=
  emit (Invoke (nextReq w) c)
    (mkWorld (store w) (domainCaches w) (recentDomains w) (timers w)
       (nextTimer w) (<[nextReq w := k]> (pending w)) (S (nextReq w)) (trace w)).

Definition settle (rid : nat) (w : World) : World :=
  mkWorld (store w) (domainCaches w) (recentDomains w) (timers w) (nextTimer w)
    (delete rid (pending w)) (nextReq w) (trace w).

Definition setInterval (ms : nat) (w : World) : World :=
  emit (SetInterval (nextTimer w) ms)
    (mkWorld (store w) (domainCaches w) (recentDomains w)
       ({[nextTimer w]} ∪ timers w) (S (nextTimer w)) (pending w) (nextReq w)
       (trace w)).

Definition clearInterval (timer : nat) (w : World) : World :=
  emit (ClearInterval timer)
    (mkWorld (store w) (domainCaches w) (recentDomains w)
       (timers w ∖ {[timer]}) (nextTimer w) (pending w) (nextReq w) (trace w)).

(** Modelled from the spec: [clearAccountCache] of the domain store, which is
    not among the sources; section 4.7 has it invalidate every cache keyed
    by the account, for all domains. *)
Definition clearAccountCache (id : string) (w : World) : World :=
  emit (ClearAccountCache id)
    (mkWorld (store w)
       (filter (fun kv => kv.1.1 ≠ id) (domainCaches w))
       (recentDomains w) (timers w) (nextTimer w) (pending w) (nextReq w)
       (trace w)).

(** Modelled from the spec: [removeRecentDomainsByAccount] of
    [@/lib/recent-domains], which is not among the sources; section 4.7 has it
    purge the recently viewed domains that reference the account. *)
Definition removeRecentDomainsByAccount (id : string) (w : World) : World :=
  emit (RemoveRecentDomainsByAccount id)
    (mkWorld (store w) (domainCaches w)
       (filter (fun k => k.1 ≠ id) (recentDomains w))
       (timers w) (nextTimer w) (pending w) (nextReq w) (trace w)).

(** ** Field updates of the store *)

Definition with_accounts (l : list Account) (s : State) : State :=
  mkState l (selectedAccountId s) (isLoading s) (isDeleting s) (isRestoring s)
    (error s).

Definition with_selectedAccountId (o : option string) (s : State) : State :=
  mkState (accounts s) o (isLoading s) (isDeleting s) (isRestoring s) (error s).

Definition with_isLoading (b : bool) (s : State) : State :=
  mkState (accounts s) (selectedAccountId s) b (isDeleting s) (isRestoring s)
    (error s).

Definition with_isDeleting (b : bool) (s : State) : State :=
  mkState (accounts s) (selectedAccountId s) (isLoading s) b (isRestoring s)
    (error s).

Definition with_isRestoring (b : bool) (s : State) : State :=
  mkState (accounts s) (selectedAccountId s) (isLoading s) (isDeleting s) b
    (error s).

Definition with_error (m : option Msg) (s : State) : State :=
  mkState (accounts s) (selectedAccountId s) (isLoading s) (isDeleting s)
    (isRestoring s) m.

(** ** The actions, one definition per synchronous segment *)

(** [fetchAccounts], up to its [await]. *)
Definition fetchAccounts (w : World) : World :=
  let w := emit (Called FetchAccounts) w in
  let w := set_ ["isLoading"; "error"]
             (fun s => with_error None (with_isLoading true s)) w in
  invoke ListAccounts KFetchAccounts w.

(** [fetchAccounts], from its [await] to its end. *)
Definition fetchAccounts_resume (r : Settled (ApiResponse (list Account)))
    (w : World) : World :=
  let w :=
    match r with
    | Resolved response =>
        match success response, data response with
        | true, Some d =>
            let w := set_ ["accounts"] (with_accounts d) w in
            let failedAccounts := filter (fun a => acc_status a = "error") d in
            if 0 <? length failedAccounts
            then emit (ToastError (I18nCount "account.loadFailedCount"
                                     (length failedAccounts))) w
            else w
        | _, _ =>
            let msg := GetErrorMessage (api_error response) in
            emit (ToastError msg) (set_ ["error"] (with_error (Some msg)) w)
        end
    | Rejected err =>
        let msg := ExtractErrorMessage err in
        emit (ToastError msg) (set_ ["error"] (with_error (Some msg)) w)
    end in
  let w := set_ ["isLoading"] (with_isLoading false) w in
  emit (Returned FetchAccounts None) w.

(** [deleteAccount(id)], up to its [await]. *)
Definition deleteAccount (id : string) (w : World) : World :=
  let w := emit (Called (DeleteAccountOf id)) w in
  let w := set_ ["isDeleting"] (with_isDeleting true) w in
  invoke (DeleteAccount id) (KDeleteAccount id) w.

(** The functional update of the success branch. *)
Definition removeAccount (id : string) (s : State) : State :=
  with_selectedAccountId
    (if decide (selectedAccountId s = Some id) then None else selectedAccountId s)
    (with_accounts (filter (fun a => acc_id a ≠ id) (accounts s)) s).

(** [deleteAccount(id)], from its [await] to its end; the [finally] block
    runs before the promise is fulfilled with the returned value. *)
Definition deleteAccount_resume (id : string) (r : Settled (ApiResponse unit))
    (w : World) : World :=
  let '(w, result) :=
    match r with
    | Resolved response =>
        if success response then
          let w := set_ ["accounts"; "selectedAccountId"] (removeAccount id) w in
          let w := clearAccountCache id w in
          let w := removeRecentDomainsByAccount id w in
          let w := emit (ToastSuccess (I18n "account.deleteSuccess")) w in
          (w, true)
        else (emit (ToastError (I18n "account.deleteFailed")) w, false)
    | Rejected err => (emit (ToastError (ExtractErrorMessage err)) w, false)
    end in
  let w := set_ ["isDeleting"] (with_isDeleting false) w in
  emit (Returned (DeleteAccountOf id) (Some result)) w.

(** The period of the restore poll, in milliseconds. *)
Definition POLL_INTERVAL : nat := 500.

(** [checkRestoreStatus], up to its [await]. *)
Definition checkRestoreStatus (w : World) : World :=
  let w := emit (Called CheckRestoreStatus) w in
  invoke IsRestoreCompleted KCheckRestoreStatus w.

(** [checkRestoreStatus], from its [await] to its end. The [await] is not
    inside a [try]: a rejection rejects the promise of the action. The call
    [get().fetchAccounts()] is not awaited: it runs [fetchAccounts] up to
    its own suspension point. *)
Definition checkRestoreStatus_resume (r : Settled bool) (w : World) : World :=
  match r with
  | Resolved true =>
      emit (Returned CheckRestoreStatus None) (fetchAccounts w)
  | Resolved false =>
      let w := set_ ["isRestoring"] (with_isRestoring true) w in
      let w := setInterval POLL_INTERVAL w in
      emit (Returned CheckRestoreStatus None) w
  | Rejected err => emit (Threw CheckRestoreStatus err) w
  end.

(** The interval callback of timer [poll], up to its [await]. *)
Definition poll_tick (poll : nat) (w : World) : World :=
  invoke IsRestoreCompleted (KPoll poll) w.

(** The interval callback of timer [poll], from its [await] to its end. *)
Definition poll_resume (poll : nat) (r : Settled bool) (w : World) : World :=
  match r with
  | Resolved true =>
      let w := clearInterval poll w in
      let w := set_ ["isRestoring"] (with_isRestoring false) w in
      fetchAccounts w
  | Resolved false => w
  | Rejected err =>
      let w := emit (LoggerError "Failed to check restore status:" err) w in
      let w := clearInterval poll w in
      set_ ["isRestoring"] (with_isRestoring false) w
  end.

(** ** The event loop *)

Inductive Event :=
| CallFetchAccounts
| CallDeleteAccount (id : string)
| CallCheckRestoreStatus
| Tick (timer : nat)
| SettleList (rid : nat) (r : Settled (ApiResponse (list Account)))
| SettleVoid (rid : nat) (r : Settled (ApiResponse unit))
| SettleBool (rid : nat) (r : Settled bool).

(** One turn of the event loop. A timer that has been cleared does not
    tick, and a request settles once, with a value of its command's type. *)
Definition step (w : World) (ev : Event) : World :=
  match ev with
  | CallFetchAccounts => fetchAccounts w
  | CallDeleteAccount id => deleteAccount id w
  | CallCheckRestoreStatus => checkRestoreStatus w
  | Tick timer =>
      if bool_decide (timer ∈ timers w) then poll_tick timer w else w
  | SettleList rid r =>
      match pending w !! rid with
      | Some KFetchAccounts => fetchAccounts_resume r (settle rid w)
      | _ => w
      end
  | SettleVoid rid r =>
      match pending w !! rid with
      | Some (KDeleteAccount id) => deleteAccount_resume id r (settle rid w)
      | _ => w
      end
  | SettleBool rid r =>
      match pending w !! rid with
      | Some KCheckRestoreStatus => checkRestoreStatus_resume r (settle rid w)
      | Some (KPoll poll) => poll_resume poll r (settle rid w)
      | _ => w
      end
  end.

Definition run (w : World) (evs : list Event) : World := foldl step w evs.

(** ** Observations on a trace *)

Definition is_load (e : Effect) : bool :=
  match e with Called FetchAccounts => true | _ => false end.

Definition is_invoke (e : Effect) : bool :=
  match e with Invoke _ _ => true | _ => false end.

Definition is_diagnostic (e : Effect) : bool :=
  match e with
  | LoggerError _ _ | ToastError _ => true
  | _ => false
  end.

(** How many times the initial data load has been triggered. *)
Definition loads (w : World) : nat := length (List.filter is_load (trace w)).

(** How many requests have been sent. *)
Definition requests (w : World) : nat := length (List.filter is_invoke (trace w)).

(** How many diagnostics have been surfaced. *)
Definition diagnostics (w : World) : nat :=
  length (List.filter is_diagnostic (trace w)).

(** The effects of [w'] that [w] does not have yet. *)
Definition since (w w' : World) : list Effect :=
  drop (length (trace w)) (trace w').

(** Whether the remote delete confirmed the deletion: it neither threw nor
    answered with [success: false]. *)
Definition confirmed (r : Settled (ApiResponse unit)) : bool :=
  match r with
  | Resolved response => success response
  | Rejected _ => false
  end.

(** The state of the restore poller as the store shows it. *)
Definition restoring (w : World) : bool := isRestoring (store w).

End AccountStore.

(* ===================================================================== *)
(** * The other controls of the record table                               *)
(* ===================================================================== *)

Module TableControls.
Import DnsRecordTable.

Global Instance SortField_eq_dec : EqDecision SortField.
Proof. solve_decision. Defined.

Global Instance SortDirection_eq_dec : EqDecision SortDirection.
Proof. solve_decision. Defined.

Definition setSortField (f : option SortField) (v : View) : View :=
  mkView (searchInput v) (selectedType v) f (sortDirection v) (debounce v)
    (now v) (calls v).

Definition setSortDirection (d : option SortDirection) (v : View) : View :=
  mkView (searchInput v) (selectedType v) (sortField v) d (debounce v)
    (now v) (calls v).

(** A click on a column header: the same column goes asc, desc, unsorted; a
    new column starts at asc. *)
Definition handleSort (field : SortField) (v : View) : View :=
  if decide (sortField v = Some field) then
    match sortDirection v with
    | Some Asc => setSortDirection (Some Desc) v
    | Some Desc => setSortField None (setSortDirection None v)
    | None => setSortDirection (Some Asc) v
    end
  else setSortDirection (Some Asc) (setSortField (Some field) v).

Inductive Icon := ArrowUpDown | ArrowUp | ArrowDown.

(** The icon in the header of column [field]. *)
Definition SortIcon (field : SortField) (v : View) : Icon :=
  if decide (sortField v ≠ Some field) then ArrowUpDown
  else if decide (sortDirection v = Some Asc) then ArrowUp
  else ArrowDown.

(** The refresh button. *)
Definition refresh (p : Props) (v : View) : View :=
  fetchRecords p (Some (searchInput v)) (Some (selectedType v)) v.

(** The column a sort field reads. *)
Definition column (field : SortField) (r : DnsStore.DnsRecord) : string + Z :=
  match field with
  | SortType => inl (DnsStore.rec_type r)
  | SortName => inl (DnsStore.rec_name r)
  | SortValue => inl (DnsStore.rec_value r)
  | SortTtl => inr (DnsStore.rec_ttl r)
  end.

(** The order of the TTL column in a direction. *)
Definition ttl_order (direction : SortDirection) (a b : DnsStore.DnsRecord) : Prop :=
  match direction with
  | Asc => (DnsStore.rec_ttl a <= DnsStore.rec_ttl b)%Z
  | Desc => (DnsStore.rec_ttl b <= DnsStore.rec_ttl a)%Z
  end.

(** The user's inputs other than clear-filters: a keyword edit, a pause, a
    click on a type filter, a click on refresh. *)
Inductive Input :=
| Edit (value : string)
| Wait (d : nat)
| ChooseType (type : string)
| Refresh.

Definition input (p : Props) (v : View) (i : Input) : View :=
  match i with
  | Edit value => handleSearchChange value v
  | Wait d => elapse p d v
  | ChooseType type => handleTypeChange p type v
  | Refresh => refresh p v
  end.

Definition inputs (p : Props) (v : View) (l : list Input) : View :=
  foldl (input p) v l.

(** The calls into the store that [v'] has made since [v]. *)
Definition issued (v v' : View) : list StoreCall :=
  drop (length (calls v)) (calls v').

(** A sequence of clicks on column headers. *)
Definition clicks (v : View) (l : list SortField) : View :=
  foldl (fun v field => handleSort field v) v l.

(** The sort field and the sort direction are set together. *)
Definition sort_consistent (v : View) : Prop :=
  sortField v = None ↔ sortDirection v = None.

(** The keyword of a pending debounced search is the one in the search box. *)
Definition pending_shown (v : View) : Prop :=
  ∀ deadline keyword, debounce v = Some (deadline, keyword) → keyword = searchInput v.

End TableControls.

(* ===================================================================== *)
(** * The other actions of the account store                               *)
(* ===================================================================== *)

Module AccountActions.

Record ProviderInfo := mkProvider { provider_id : string }.

(** The details of a credential validation error: the form field at fault. *)
Record CredentialValidationDetails := mkDetails { field : string }.

(** [ApiError] as [createAccount] reads it: its code, and its details when
    they are those of a credential validation. *)
Record ApiError := mkApiError {
  code : string;
  details : option CredentialValidationDetails
}.

Record ApiResponse (T : Type) := mkResponse {
  success : bool;
  data : option T;
  error_of : option ApiError
}.
Arguments mkResponse {T} _ _ _.
Arguments success {T} _.
Arguments data {T} _.
Arguments error_of {T} _.

Inductive Msg :=
| GetErrorMessage (e : option ApiError)
| GetFieldErrorMessage (d : CredentialValidationDetails)
| ExtractErrorMessage (err : AccountStore.Exn)
| Thrown (err : AccountStore.Exn).

Inductive Effect :=
| ToastSuccess (key name : string)
| ToastError (m : Msg)
| LoggerError (m : string) (detail : Msg).

(** [AccountState], all its data fields. *)
Record AccountState := mkState {
  accounts : list AccountStore.Account;
  providers : list ProviderInfo;
  selectedAccountId : option string;
  expandedAccountId : option string;
  isLoading : bool;
  isDeleting : bool;
  isRestoring : bool;
  error : option Msg;
  fieldErrors : gmap string Msg;
  isExportDialogOpen : bool;
  isImportDialogOpen : bool
}.

Definition initState : AccountState :=
  mkState [] [] None None false false false None ∅ false false.

Definition with_accounts (l : list AccountStore.Account) (s : AccountState) :=
  mkState l (providers s) (selectedAccountId s) (expandedAccountId s)
    (isLoading s) (isDeleting s) (isRestoring s) (error s) (fieldErrors s)
    (isExportDialogOpen s) (isImportDialogOpen s).


Definition with_isLoading (b : bool) (s : AccountState) :=
  mkState (accounts s) (providers s) (selectedAccountId s) (expandedAccountId s)
    b (isDeleting s) (isRestoring s) (error s) (fieldErrors s)
    (isExportDialogOpen s) (isImportDialogOpen s).

Definition with_error (m : option Msg) (s : AccountState) :=
  mkState (accounts s) (providers s) (selectedAccountId s) (expandedAccountId s)
    (isLoading s) (isDeleting s) (isRestoring s) m (fieldErrors s)
    (isExportDialogOpen s) (isImportDialogOpen s).

Definition with_fieldErrors (m : gmap string Msg) (s : AccountState) :=
  mkState (accounts s) (providers s) (selectedAccountId s) (expandedAccountId s)
    (isLoading s) (isDeleting s) (isRestoring s) (error s) m
    (isExportDialogOpen s) (isImportDialogOpen s).

(** What a continuation leaves: the store, the toasts and log lines in
    order, and the value the action's promise is fulfilled with. *)
Record Outcome (R : Type) := mkOutcome {
  state : AccountState;
  effects : list Effect;
  result : R
}.
Arguments mkOutcome {R} _ _ _.
Arguments state {R} _.
Arguments effects {R} _.
Arguments result {R} _.

(** [createAccount(request)], up to its [await]. *)
Definition createAccount (s : AccountState) : AccountState :=
  with_fieldErrors ∅ (with_error None (with_isLoading true s)).

(** [createAccount(request)], from its [await] to its end. *)
Definition createAccount_resume
    (r : AccountStore.Settled (ApiResponse AccountStore.Account))
    (s : AccountState) : Outcome (option AccountStore.Account) :=
  let '(s, effs, ret) :=
    match r with
    | AccountStore.Resolved response =>
        match success response, data response with
        | true, Some account =>
            (with_accounts (accounts s ++ [account]) s,
             [ToastSuccess "account.createSuccess" (AccountStore.acc_name account)],
             Some account)
        | _, _ =>
            match error_of response with
            | Some (mkApiError "CredentialValidation" (Some d)) =>
                (with_fieldErrors {[ field d := GetFieldErrorMessage d ]} s,
                 [], None)
            | e =>
                let msg := GetErrorMessage e in
                (with_error (Some msg) s, [ToastError msg], None)
            end
        end
    | AccountStore.Rejected err =>
        let msg := ExtractErrorMessage err in
        (with_error (Some msg) s, [ToastError msg], None)
    end in
  mkOutcome (with_isLoading false s) effs ret.


(** The account a [create_account] answer delivers, if it delivers one. *)
Definition created (r : AccountStore.Settled (ApiResponse AccountStore.Account))
    : option AccountStore.Account :=
  match r with
  | AccountStore.Resolved response => if success response then data response else None
  | AccountStore.Rejected _ => None
  end.

(** The form field an answer blames, if it is a credential validation error
    with details. *)
Definition blamed (r : AccountStore.Settled (ApiResponse AccountStore.Account))
    : option CredentialValidationDetails :=
  match r with
  | AccountStore.Resolved response =>
      match error_of response with
      | Some e =>
          if String.eqb (code e) "CredentialValidation" then details e else None
      | None => None
      end
  | AccountStore.Rejected _ => None
  end.


End AccountActions.

(* ===================================================================== *)
(** * The account store: readings of its runs                              *)
(* ===================================================================== *)

Module AccountRuns.
Import AccountStore.

(** The accounts a [list_accounts] answer delivers, if it delivers any:
    [response.success && response.data]. *)
Definition loaded (r : Settled (ApiResponse (list Account))) : option (list Account) :=
  match r with
  | Resolved response => if success response then data response else None
  | Rejected _ => None
  end.

(** The accounts of an answer that failed to load on the remote side. *)
Definition failedAccounts (d : list Account) : list Account :=
  filter (fun a => acc_status a = "error") d.

(** A poll answer that ends the polling: completion or an error. *)
Definition ends_polling (r : Settled bool) : bool :=
  match r with
  | Resolved false => false
  | _ => true
  end.

(** Timer handles are handed out in increasing order: the timers that are
    set, and those a suspended poll callback refers to, are older than the
    next handle. *)
Definition timers_ok (w : World) : Prop :=
  (∀ t, t ∈ timers w → t < nextTimer w)
  ∧ (∀ rid poll, pending w !! rid = Some (KPoll poll) → poll < nextTimer w).

End AccountRuns.

(* ===================================================================== *)
(** * Navigation of the mobile menu                                        *)
(* ===================================================================== *)

Module Navigation.

Inductive NavItem := Main | Domains | Toolbox | Settings | Accounts.

Definition navPaths (item : NavItem) : string :=
  match item with
  | Main => "/"
  | Domains => "/domains"
  | Toolbox => "/toolbox"
  | Settings => "/settings"
  | Accounts => "/accounts"
  end.

(** [s.startsWith(p)]. *)
Definition startsWith (s p : string) : bool := String.prefix p s.

Definition getNavItemFromPath (pathname : string) : NavItem :=
  if String.eqb pathname "/" then Main
  else if startsWith pathname "/domains" then Domains
  else if startsWith pathname "/toolbox" then Toolbox
  else if startsWith pathname "/settings" then Settings
  else if startsWith pathname "/accounts" then Accounts
  else Main.

End Navigation.

(* ===================================================================== *)
(** * The platform of the running application                              *)
(* ===================================================================== *)

Module Env.

(** The module variable [cachedPlatform], and how many times [platform()]
    of the platform implementation has been called. *)
Record State := mkState {
  cachedPlatform : option string;
  reads : nat
}.

Definition init : State := mkState None 0.

Section Platform.
(** [platform ()] of the platform implementation: the value of its n-th
    call. *)
Variable platform : nat -> string.

Definition getPlatform (s : State) : State * string :=
  match cachedPlatform s with
  | None =>
      let v := platform (reads s) in (mkState (Some v) (S (reads s)), v)
  | Some v => (s, v)
  end.

Definition initEnv (s : State) : State :=
  mkState (Some (platform (reads s))) (S (reads s)).

End Platform.

Definition isAndroid (s : State) : bool :=
  bool_decide (cachedPlatform s = Some "android").

Definition isIOS (s : State) : bool :=
  bool_decide (cachedPlatform s = Some "ios").

Definition isDesktop (s : State) : bool :=
  bool_decide (cachedPlatform s ≠ Some "android")
  && bool_decide (cachedPlatform s ≠ Some "ios").

(** [n] calls of [getPlatform] in a row: the final state and the values
    returned, first call first. *)
Fixpoint getPlatform_times (platform : nat -> string) (n : nat) (s : State)
    : State * list string :=
  match n with
  | 0 => (s, [])
  | S n' =>
      let '(s1, v) := getPlatform platform s in
      let '(s2, vs) := getPlatform_times platform n' s1 in
      (s2, v :: vs)
  end.

End Env.

(* ===================================================================== *)
(** * The name of an opened file                                           *)
(* ===================================================================== *)

Module FileService.

(** [s.split(sep)] for a separator of one character: never empty, the empty
    string gives one empty segment. *)
Fixpoint split (sep : Ascii.ascii) (s : string) : list string :=
  match s with
  | EmptyString => [EmptyString]
  | String c s' =>
      if Ascii.eqb c sep then EmptyString :: split sep s'
      else
        match split sep s' with
        | seg :: rest => String c seg :: rest
        | [] => [String c EmptyString]
        end
  end.

(** [a.pop()]: the last element, [undefined] for the empty array. *)
Definition pop (a : list string) : option string := last a.

(** [(filePath as string).split("/").pop() || "file"] of [openFileTauri]:
    an undefined or empty last segment gives "file". *)
Definition filenameOf (filePath : string) : string :=
  match pop (split "/"%char filePath) with
  | Some seg => if String.eqb seg EmptyString then "file" else seg
  | None => "file"
  end.

(** Whether a string contains a character. *)
Fixpoint contains (c : Ascii.ascii) (s : string) : bool :=
  match s with
  | EmptyString => false
  | String c' s' => Ascii.eqb c' c || contains c s'
  end.

End FileService.

(* ===================================================================== *)
(** * The batch action bar of the accounts page                            *)
(* ===================================================================== *)

Module AccountBatchActionBar.

Section Bar.
Variable selectedAccountIds : gset string.
Variable accounts : list AccountStore.Account.

Definition selectedCount : nat := size selectedAccountIds.
Definition totalCount : nat := length accounts.

Definition isAllSelected : bool :=
  (selectedCount =? totalCount) && (0 <? totalCount).

End Bar.

End AccountBatchActionBar.

(* ===================================================================== *)
(** * The build configuration                                              *)
(* ===================================================================== *)

Module ViteConfig.

(** [process.env.VITE_PLATFORM ?? "tauri"]: only an unset variable falls
    back. *)
Definition platform (VITE_PLATFORM : option string) : string :=
  default "tauri" VITE_PLATFORM.

(** The targets of the two aliases, relative to the project directory. *)
Definition transportImpl (VITE_PLATFORM : option string) : string :=
  if String.eqb (platform VITE_PLATFORM) "web"
  then "./src/services/transport/http.transport.ts"
  else "./src/services/transport/tauri.transport.ts".

Definition platformImpl (VITE_PLATFORM : option string) : string :=
  if String.eqb (platform VITE_PLATFORM) "web"
  then "./src/lib/platform.web.ts"
  else "./src/lib/platform.tauri.ts".

(** The dev-server proxy: the proxied path and its target, when there is
    one. *)
Definition proxy (VITE_PLATFORM : option string) : option (string * string) :=
  if String.eqb (platform VITE_PLATFORM) "web"
  then Some ("/api", "http://localhost:8080")
  else None.

End ViteConfig.

(* ===================================================================== *)
(** * Properties of the fetch sequencer                                    *)
(* ===================================================================== *)

Section FetchSequencer.
Import DnsStore.

Lemma cacheOf_setCache key c st : cacheOf key (setCache key c st) = c.
Proof. unfold cacheOf, setCache; simpl. by rewrite lookup_insert_eq. Qed.

Lemma cacheOf_setCache_ne key key' c st :
  key ≠ key' → cacheOf key' (setCache key c st) = cacheOf key' st.
Proof. intros Hne. unfold cacheOf, setCache; simpl. by rewrite lookup_insert_ne. Qed.

Lemma setCache_setCache key c c' st :
  setCache key c' (setCache key c st) = setCache key c' st.
Proof. unfold setCache; simpl. by rewrite insert_insert_eq. Qed.

(** A token older than the cache's generation is refused, whatever else
    holds. *)
Lemma accepts_stale tok st :
  tk_gen tok < loadGeneration (cacheOf (tk_key tok) st) → accepts tok st = false.
Proof.
  unfold accepts, cacheOf. destruct (caches st !! tk_key tok) as [c|]; simpl; [|done].
  intros Hlt. apply Nat.ltb_lt in Hlt. by rewrite Hlt.
Qed.

Lemma commit_stale tok res st :
  tk_gen tok < loadGeneration (cacheOf (tk_key tok) st) →
  commit tok res st = (st, false).
Proof. intros H. unfold commit. by rewrite accepts_stale. Qed.

Lemma fail_stale tok st :
  tk_gen tok < loadGeneration (cacheOf (tk_key tok) st) → fail tok st = st.
Proof. intros H. unfold fail. by rewrite accepts_stale. Qed.

(** The token of a full fetch carries the generation the fetch installs. *)
Lemma loadFull_gen key keyword type st :
  tk_gen (loadFull key keyword type st).2
  = loadGeneration (cacheOf key (loadFull key keyword type st).1)
  ∧ loadGeneration (cacheOf key (loadFull key keyword type st).1)
    = S (loadGeneration (cacheOf key st)).
Proof. unfold loadFull; simpl. by rewrite cacheOf_setCache. Qed.

Lemma accepts_current key g kind c st :
  activeKey st = Some key → caches st !! key = Some c → loadGeneration c = g →
  accepts (mkToken key g kind) st = true.
Proof.
  intros Hact Hc Hg. unfold accepts; simpl. rewrite Hc, Hact, Hg.
  rewrite Nat.ltb_irrefl. simpl. by apply bool_decide_eq_true.
Qed.

Lemma commit_current key g kind res c st :
  activeKey st = Some key → loadGeneration c = g →
  commit (mkToken key g kind) res (setCache key c st)
  = (setCache key (merge kind res c) st, true).
Proof.
  intros Hact Hg. unfold commit.
  erewrite accepts_current; [|done|apply lookup_insert_eq|done].
  simpl. by rewrite cacheOf_setCache, setCache_setCache.
Qed.

(** The generation of a key never decreases. *)
Lemma sys_step_gen s i key :
  loadGeneration (cacheOf key (ctrl s))
  ≤ loadGeneration (cacheOf key (ctrl (sys_step s i))).
Proof.
  destruct i as [k kw ty|k|k|tok r]; simpl.
  - destruct (decide (k = key)) as [->|Hne].
    + rewrite cacheOf_setCache. simpl. lia.
    + by rewrite cacheOf_setCache_ne.
  - unfold fetchMoreRecords.
    destruct (negb _ || _ || _); simpl; [done|].
    destruct (decide (k = key)) as [->|Hne].
    + by rewrite cacheOf_setCache.
    + by rewrite cacheOf_setCache_ne.
  - done.
  - case_bool_decide; [|done]. simpl.
    destruct r as [res|]; unfold commit, fail; destruct (accepts tok (ctrl s)); simpl; try done.
    + destruct (decide (tk_key tok = key)) as [<-|Hne].
      * rewrite cacheOf_setCache. by destruct (tk_kind tok).
      * by rewrite cacheOf_setCache_ne.
    + destruct (decide (tk_key tok = key)) as [<-|Hne].
      * by rewrite cacheOf_setCache.
      * by rewrite cacheOf_setCache_ne.
Qed.

Lemma sys_run_gen l s key :
  loadGeneration (cacheOf key (ctrl s))
  ≤ loadGeneration (cacheOf key (ctrl (sys_run s l))).
Proof.
  revert s. induction l as [|i l IH]; intros s; simpl; [done|].
  etrans; [apply (sys_step_gen s i key)|apply IH].
Qed.

(** A late response to a superseded full fetch changes no cache, whatever
    happened between the two fetches and since the second one. *)
Lemma late_response_ignored s key kw1 ty1 between kw2 ty2 since r :
  let t1 := (loadFull key kw1 ty1 (ctrl s)).2 in
  let s2 :=
    sys_run (sys_step (sys_run (sys_step s (ILoadFull key kw1 ty1)) between)
                      (ILoadFull key kw2 ty2)) since in
  ctrl (sys_step s2 (IResponse t1 r)) = ctrl s2.
Proof.
  intros t1 s2. simpl. case_bool_decide; [|done]. simpl.
  assert (tk_gen t1 < loadGeneration (cacheOf (tk_key t1) (ctrl s2))) as Hlt.
  { subst t1 s2. simpl.
    set (sa := sys_run _ between).
    eapply Nat.lt_le_trans; [|apply sys_run_gen].
    simpl. rewrite cacheOf_setCache. simpl.
    pose proof (sys_run_gen between
      (mkSys (loadFull key kw1 ty1 (ctrl s)).1
             ((loadFull key kw1 ty1 (ctrl s)).2 :: inflight s)) key) as Hm.
    simpl in Hm. rewrite cacheOf_setCache in Hm. simpl in Hm.
    subst sa. simpl. lia. }
  destruct r; [by rewrite commit_stale|by rewrite fail_stale].
Qed.

(** C1. Stale-response rejection: of two full fetches on the active key,
    issued with generations g1 < g2, the response to the first one, arriving
    after the second one has committed, is refused and changes nothing: the
    cache holds what the second fetch alone produces (the same contents for
    the key, the other caches untouched). *)
Theorem stale_response_rejected st key kw1 ty1 kw2 ty2 res1 res2 :
  activeKey st = Some key →
  let '(st1, t1) := loadFull key kw1 ty1 st in
  let '(st2, t2) := loadFull key kw2 ty2 st1 in
  let '(st3, accepted2) := commit t2 res2 st2 in
  let '(st4, accepted1) := commit t1 res1 st3 in
  let alone := (commit (loadFull key kw2 ty2 st).2 res2 (loadFull key kw2 ty2 st).1).1 in
  tk_gen t1 < tk_gen t2
  ∧ accepted2 = true
  ∧ accepted1 = false
  ∧ st4 = st3
  ∧ records (cacheOf key st4) = items res2
  ∧ contents (cacheOf key st4) = contents (cacheOf key alone)
  ∧ (∀ k, k ≠ key → caches st4 !! k = caches alone !! k)
  ∧ activeKey st4 = activeKey alone.
Proof.
  intros Hact. unfold loadFull. simpl.
  rewrite !cacheOf_setCache. simpl. rewrite setCache_setCache.
  rewrite !commit_current by done. simpl.
  rewrite commit_stale by (simpl; rewrite cacheOf_setCache; simpl; lia).
  rewrite commit_current by done. simpl.
  rewrite !cacheOf_setCache. simpl.
  repeat split; try done; try lia.
  intros k Hne. by rewrite !lookup_insert_ne.
Qed.

(** The theorem at a concrete state: the key is active, nothing is cached. *)
Lemma stale_response_rejected_witness :
  let key := ("acc", "example.com") in
  let st := switchKey key initController in
  let page1 := mkPage [mkDnsRecord "1" "A" "e" "1.1.1.1" 300] 1 1 false in
  let page2 := mkPage [mkDnsRecord "2" "A" "ex" "2.2.2.2" 300] 1 1 false in
  activeKey st = Some key
  ∧ let '(st1, t1) := loadFull key "e" empty_str st in
    let '(st2, t2) := loadFull key "ex" empty_str st1 in
    let '(st3, _) := commit t2 page2 st2 in
    (commit t1 page1 st3).2 = false ∧ records (cacheOf key st3) = items page2.
Proof.
  intros key st page1 page2. split; [reflexivity|].
  pose proof (stale_response_rejected st key "e" empty_str "ex" empty_str
                page1 page2 eq_refl) as H.
  destruct (loadFull key "e" empty_str st) as [st1 t1].
  destruct (loadFull key "ex" empty_str st1) as [st2 t2].
  destruct (commit t2 page2 st2) as [st3 a2].
  destruct (commit t1 page1 st3) as [st4 a1].
  destruct H as (_ & _ & Ha & Hst & Hrec & _). subst st4. by split.
Defined.

End FetchSequencer.

(* ===================================================================== *)
(** * At most one live fetch of each kind                                  *)
(* ===================================================================== *)

Section InFlight.
Import DnsStore.

Lemma live_ext full key st st' t :
  loadGeneration (cacheOf key st) = loadGeneration (cacheOf key st') →
  live full key st t = live full key st' t.
Proof. intros H. unfold live. by rewrite H. Qed.

Lemma filter_live_ext full key st st' l :
  loadGeneration (cacheOf key st) = loadGeneration (cacheOf key st') →
  List.filter (live full key st) l = List.filter (live full key st') l.
Proof. intros H. apply List.filter_ext. intros t. by apply live_ext. Qed.

(** No token of the key carries the generation: none is live. *)
Lemma filter_live_none full key st l :
  (∀ t, t ∈ l → tk_key t = key → tk_gen t < loadGeneration (cacheOf key st)) →
  List.filter (live full key st) l = [].
Proof.
  induction l as [|t l IH]; intros H; simpl; [done|].
  rewrite IH by (intros t' Ht'; apply H; by right).
  unfold live. destruct (decide (tk_key t = key)) as [Hk|Hk].
  2: { by rewrite (bool_decide_eq_false_2 _ Hk). }
  pose proof (H t (list_elem_of_here _ _) Hk) as Hlt.
  destruct (Nat.eqb_spec (tk_gen t) (loadGeneration (cacheOf key st))); [lia|].
  by rewrite andb_false_r.
Qed.

Lemma elem_of_remove_first t x l : x ∈ remove_first t l → x ∈ l.
Proof.
  induction l as [|y l IH]; simpl; [done|].
  case_decide; intros Hx.
  - by right.
  - apply elem_of_cons in Hx as [->|Hx]; [left|right; auto].
Qed.

Lemma filter_remove_first (f : Token → bool) t l :
  t ∈ l →
  length (List.filter f (remove_first t l)) + (if f t then 1 else 0)
  = length (List.filter f l).
Proof.
  induction l as [|y l IH]; intros Hin; simpl.
  - by apply elem_of_nil in Hin.
  - case_decide as Hy.
    + subst y. destruct (f t); simpl; lia.
    + apply elem_of_cons in Hin as [->|Hin]; [done|].
      specialize (IH Hin). simpl. destruct (f y); simpl; lia.
Qed.

Lemma filter_remove_first_le (f : Token → bool) t l :
  length (List.filter f (remove_first t l)) ≤ length (List.filter f l).
Proof.
  induction l as [|y l IH]; simpl; [done|].
  case_decide.
  - destruct (f y); simpl; lia.
  - simpl. destruct (f y); simpl; lia.
Qed.


Lemma live_count_cons full key st tok l :
  length (List.filter (live full key st) (tok :: l))
  = (if live full key st tok then 1 else 0) + length (List.filter (live full key st) l).
Proof. simpl. by destruct (live full key st tok). Qed.

Lemma live_other_key full key st tok :
  tk_key tok ≠ key → live full key st tok = false.
Proof. intros H. unfold live. by rewrite (bool_decide_eq_false_2 _ H). Qed.

Lemma live_current full key st g kind :
  loadGeneration (cacheOf key st) = g →
  live full key st (mkToken key g kind) = Bool.eqb (is_full kind) full.
Proof.
  intros <-. unfold live; simpl.
  by rewrite Nat.eqb_refl, bool_decide_eq_true_2, andb_true_r.
Qed.

Lemma inflight_inv_loadFull s k kw ty :
  inflight_inv s → inflight_inv (sys_step s (ILoadFull k kw ty)).
Proof.
  intros [Hb Hk]. simpl. split.
  - intros t Ht. simpl in *. apply elem_of_cons in Ht as [->|Ht]; simpl.
    + by rewrite cacheOf_setCache.
    + destruct (decide (k = tk_key t)) as [->|Hne].
      * rewrite cacheOf_setCache. simpl. specialize (Hb t Ht). lia.
      * rewrite cacheOf_setCache_ne by done. by apply Hb.
  - intros key. unfold live_count. simpl inflight. simpl ctrl.
    rewrite !live_count_cons.
    destruct (decide (k = key)) as [->|Hne].
    + rewrite !filter_live_none.
      2,3: intros t Ht <-; rewrite cacheOf_setCache; simpl; specialize (Hb t Ht); lia.
      rewrite !live_current by (by rewrite cacheOf_setCache).
      rewrite cacheOf_setCache. simpl.
      repeat split; try lia; done.
    + rewrite !live_other_key by done. simpl.
      rewrite !(filter_live_ext _ key (setCache _ _ _) (ctrl s)) by (by rewrite cacheOf_setCache_ne).
      rewrite cacheOf_setCache_ne by done. apply Hk.
Qed.

Lemma inflight_inv_loadMore s k :
  inflight_inv s → inflight_inv (sys_step s (ILoadMore k)).
Proof.
  intros [Hb Hk]. simpl. unfold fetchMoreRecords.
  destruct (negb (hasMore (cacheOf k (ctrl s))) || isLoading (cacheOf k (ctrl s))
            || isLoadingMore (cacheOf k (ctrl s))) eqn:Hguard.
  { by destruct s. }
  apply orb_false_iff in Hguard as [Hguard Hmore].
  apply orb_false_iff in Hguard as [_ Hfull].
  split.
  - intros t Ht. simpl in *. apply elem_of_cons in Ht as [->|Ht]; simpl.
    + by rewrite cacheOf_setCache.
    + destruct (decide (k = tk_key t)) as [->|Hne].
      * rewrite cacheOf_setCache. simpl. by apply Hb.
      * rewrite cacheOf_setCache_ne by done. by apply Hb.
  - intros key. unfold live_count. simpl inflight. simpl ctrl.
    rewrite !live_count_cons.
    destruct (Hk key) as (Hf & Ha & Hff & Haf). unfold live_count in *.
    destruct (decide (k = key)) as [->|Hne].
    + rewrite !(filter_live_ext _ key (setCache _ _ _) (ctrl s)) by (by rewrite cacheOf_setCache).
      rewrite cacheOf_setCache. simpl.
      rewrite !live_current by (by rewrite cacheOf_setCache). simpl.
      assert (length (List.filter (live false key (ctrl s)) (inflight s)) = 0) as Hz.
      { destruct (length (List.filter (live false key (ctrl s)) (inflight s))); [done|].
        rewrite Haf in Hmore by lia. done. }
      rewrite Hz. repeat split; try lia; try done.
    + rewrite !live_other_key by done. simpl.
      rewrite !(filter_live_ext _ key (setCache _ _ _) (ctrl s)) by (by rewrite cacheOf_setCache_ne).
      rewrite cacheOf_setCache_ne by done. done.
Qed.

Lemma accepts_live tok s :
  inflight_inv s → tok ∈ inflight s → accepts tok (ctrl s) = true →
  ∀ full, live full (tk_key tok) (ctrl s) tok = Bool.eqb (is_full (tk_kind tok)) full.
Proof.
  intros [Hb _] Hin Hacc full. specialize (Hb tok Hin).
  unfold accepts in Hacc. unfold cacheOf in Hb.
  destruct (caches (ctrl s) !! tk_key tok) as [c|] eqn:Hc; [|done].
  apply andb_true_iff in Hacc as [Hge _]. apply negb_true_iff, Nat.ltb_ge in Hge.
  simpl in Hb. unfold live, cacheOf. rewrite Hc. simpl.
  rewrite (proj2 (Nat.eqb_eq _ _)) by lia.
  by rewrite bool_decide_eq_true_2, andb_true_r.
Qed.

(** A response: refused, it changes no cache; accepted, it replaces the cache
    of its key by one of the same generation. *)
Lemma inflight_inv_response s tok (c' : DomainRecordCache) :
  inflight_inv s → tok ∈ inflight s → accepts tok (ctrl s) = true →
  loadGeneration c' = loadGeneration (cacheOf (tk_key tok) (ctrl s)) →
  (if is_full (tk_kind tok)
   then isLoadingMore c' = isLoadingMore (cacheOf (tk_key tok) (ctrl s))
   else isLoading c' = isLoading (cacheOf (tk_key tok) (ctrl s))) →
  inflight_inv (mkSys (setCache (tk_key tok) c' (ctrl s))
                      (remove_first tok (inflight s))).
Proof.
  intros Hinv Hin Hacc Hgen Hflag.
  pose proof (accepts_live tok s Hinv Hin Hacc) as Hlive.
  destruct Hinv as [Hb Hk]. split; simpl.
  - intros t Ht. apply elem_of_remove_first in Ht.
    destruct (decide (tk_key tok = tk_key t)) as [He|Hne].
    + rewrite He, cacheOf_setCache. rewrite Hgen, He. by apply Hb.
    + rewrite cacheOf_setCache_ne by done. by apply Hb.
  - intros key. unfold live_count; simpl.
    destruct (Hk key) as (Hf & Ha & Hff & Haf). unfold live_count in *.
    destruct (decide (tk_key tok = key)) as [He|Hne].
    + subst key.
      rewrite !(filter_live_ext _ (tk_key tok) (setCache _ _ _) (ctrl s))
        by (by rewrite cacheOf_setCache).
      rewrite cacheOf_setCache.
      pose proof (filter_remove_first (live true (tk_key tok) (ctrl s)) tok _ Hin) as H1.
      pose proof (filter_remove_first (live false (tk_key tok) (ctrl s)) tok _ Hin) as H2.
      rewrite Hlive in H1, H2.
      destruct (is_full (tk_kind tok)); simpl in *.
      * rewrite Hflag. repeat split; try lia. intros Hpos. apply Haf. lia.
      * rewrite Hflag. repeat split; try lia. intros Hpos. apply Hff. lia.
    + rewrite !(filter_live_ext _ key (setCache _ _ _) (ctrl s))
        by (by rewrite cacheOf_setCache_ne).
      rewrite cacheOf_setCache_ne by done.
      pose proof (filter_remove_first_le (live true key (ctrl s)) tok (inflight s)).
      pose proof (filter_remove_first_le (live false key (ctrl s)) tok (inflight s)).
      repeat split; try lia.
      * intros Hpos. apply Hff. lia.
      * intros Hpos. apply Haf. lia.
Qed.

Lemma inflight_inv_refused s tok :
  inflight_inv s → inflight_inv (mkSys (ctrl s) (remove_first tok (inflight s))).
Proof.
  intros [Hb Hk]. split; simpl.
  - intros t Ht. apply elem_of_remove_first in Ht. by apply Hb.
  - intros key. unfold live_count; simpl.
    destruct (Hk key) as (Hf & Ha & Hff & Haf). unfold live_count in *.
    pose proof (filter_remove_first_le (live true key (ctrl s)) tok (inflight s)).
    pose proof (filter_remove_first_le (live false key (ctrl s)) tok (inflight s)).
    repeat split; try lia.
    + intros Hpos. apply Hff. lia.
    + intros Hpos. apply Haf. lia.
Qed.

Lemma inflight_inv_step s i : inflight_inv s → inflight_inv (sys_step s i).
Proof.
  intros Hinv. destruct i as [k kw ty|k|k|tok r].
  - by apply inflight_inv_loadFull.
  - by apply inflight_inv_loadMore.
  - by destruct Hinv.
  - simpl. case_bool_decide as Hin; [|done].
    destruct r as [res|]; unfold commit, fail;
      destruct (accepts tok (ctrl s)) eqn:Hacc; simpl;
      try by apply inflight_inv_refused.
    + apply inflight_inv_response; try done; by destruct (tk_kind tok).
    + apply inflight_inv_response; try done; by destruct (tk_kind tok).
Qed.

Lemma inflight_inv_init : inflight_inv initSys.
Proof. split; [intros t Ht; by apply elem_of_nil in Ht|]. intros key. cbn. repeat split; lia. Qed.

Lemma inflight_inv_run l s : inflight_inv s → inflight_inv (sys_run s l).
Proof.
  revert s. induction l as [|i l IH]; intros s Hs; simpl; [done|].
  apply IH. by apply inflight_inv_step.
Qed.

Lemma fetchMoreRecords_guard key st :
  hasMore (cacheOf key st) = false ∨ isLoading (cacheOf key st) = true
  ∨ isLoadingMore (cacheOf key st) = true →
  fetchMoreRecords key st = (st, None).
Proof.
  intros H. unfold fetchMoreRecords.
  destruct H as [->|[->| ->]]; simpl; by rewrite ?orb_true_r.
Qed.

(** C8. [loadMore] ([fetchMoreRecords], also when the infinite-scroll
    observer triggers it) is a no-op whenever [hasMore] is false or a full
    or append fetch is in flight; the observer itself does not even call it
    when the render it belongs to saw [hasMore] false or [isLoadingMore]
    true. In every state the controller reaches from its initial state, at
    most one live full fetch and one live append fetch are outstanding per
    key. *)
Theorem loadMore_single_flight :
  (∀ key st,
     hasMore (cacheOf key st) = false ∨ isLoading (cacheOf key st) = true
     ∨ isLoadingMore (cacheOf key st) = true →
     fetchMoreRecords key st = (st, None))
  ∧ (∀ p seenHasMore seenLoadingMore entries,
       seenHasMore = false ∨ seenLoadingMore = true →
       DnsRecordTable.handleObserver p seenHasMore seenLoadingMore entries = None)
  ∧ (∀ intents key,
       let s := sys_run initSys intents in
       live_count true key s ≤ 1
       ∧ live_count false key s ≤ 1
       ∧ (hasMore (cacheOf key (ctrl s)) = false
          ∨ 0 < live_count true key s ∨ 0 < live_count false key s →
          sys_step s (ILoadMore key) = s
          ∧ ∀ p seenHasMore seenLoadingMore entries,
              (DnsRecordTable.accountId p, DnsRecordTable.domainId p) = key →
              DnsRecordTable.observe p seenHasMore seenLoadingMore entries s = s)).
Proof.
  split; [exact fetchMoreRecords_guard|]. split.
  - intros p hm lm entries H. unfold DnsRecordTable.handleObserver.
    destruct entries as [|e ?]; [done|].
    destruct H as [->| ->]; by rewrite ?andb_false_r.
  - intros intents key s.
    pose proof (inflight_inv_run intents initSys inflight_inv_init) as [_ Hk].
    fold s in Hk. destruct (Hk key) as (Hf & Ha & Hff & Haf).
    split; [done|]. split; [done|]. intros Hbusy.
    assert (sys_step s (ILoadMore key) = s) as Hnoop.
    { simpl. rewrite fetchMoreRecords_guard; [by destruct s|].
      destruct Hbusy as [?|[?|?]]; auto. }
    split; [done|]. intros p hm lm entries <-.
    unfold DnsRecordTable.observe, DnsRecordTable.handleObserver.
    destruct entries as [|e ?]; [done|].
    by destruct (e && hm && negb lm).
Qed.

(** A page is loaded, more is requested twice in a row: the second request
    is dropped, one append fetch is outstanding. A new search then supersedes
    it: no append fetch is live, one full fetch is. *)
Example loadMore_twice :
  let key := ("acc", "example.com") in
  let page := mkPage [mkDnsRecord "1" "A" "www" "1.1.1.1" 300] 40 1 true in
  let loaded :=
    sys_run initSys
      [ISwitchKey key; ILoadFull key empty_str empty_str;
       IResponse (mkToken key 1 (Full empty_str empty_str)) (Ok page)] in
  let more := sys_step loaded (ILoadMore key) in
  let search := sys_step more (ILoadFull key "www" empty_str) in
  (live_count true key loaded = 0 ∧ live_count false key loaded = 0)
  ∧ (live_count false key more = 1 ∧ sys_step more (ILoadMore key) = more)
  ∧ (live_count true key search = 1 ∧ live_count false key search = 0
     ∧ length (inflight search) = 2).
Proof. vm_compute. repeat split. Qed.

End InFlight.

(* ===================================================================== *)
(** * The search debounce and the filter buttons                           *)
(* ===================================================================== *)

Section Debounce.
Import DnsRecordTable.
Variable p : Props.

(** An edit leaves exactly one timer pending, due a full quiet period later,
    holding the edit's value. *)
Lemma handleSearchChange_spec value v :
  let v' := handleSearchChange value v in
  debounce v' = Some (now v + DEBOUNCE_DELAY, value)
  ∧ searchInput v' = value
  ∧ now v' = now v ∧ calls v' = calls v ∧ selectedType v' = selectedType v.
Proof. done. Qed.

(** Time passing short of the deadline fires nothing. *)
Lemma elapse_before_deadline d deadline keyword v :
  debounce v = Some (deadline, keyword) → now v + d < deadline →
  let v' := elapse p d v in
  debounce v' = debounce v ∧ now v' = now v + d ∧ calls v' = calls v
  ∧ selectedType v' = selectedType v ∧ searchInput v' = searchInput v.
Proof.
  intros Hd Hlt. unfold elapse. rewrite Hd.
  destruct (Nat.leb_spec deadline (now v + d)); [lia|]. by rewrite Hd.
Qed.

(** Time passing up to the deadline fires the pending call, once. *)
Lemma elapse_to_deadline d deadline keyword v :
  debounce v = Some (deadline, keyword) → deadline ≤ now v + d →
  let v' := elapse p d v in
  debounce v' = None
  ∧ calls v' = calls v ++ [FetchRecords (accountId p) (domainId p)
                             (Some keyword) (Some (selectedType v))]
  ∧ selectedType v' = selectedType v ∧ searchInput v' = searchInput v.
Proof.
  intros Hd Hle. unfold elapse. rewrite Hd.
  by destruct (Nat.leb_spec deadline (now v + d)); [|lia].
Qed.

Lemma burst_pending rest : ∀ keyword v,
  debounce v = Some (now v + DEBOUNCE_DELAY, keyword) →
  Forall (fun e => e.1 < DEBOUNCE_DELAY) rest →
  let v' := foldl (fun v e => handleSearchChange e.2 (elapse p e.1 v)) v rest in
  debounce v' = Some (now v' + DEBOUNCE_DELAY, default keyword (last (map snd rest)))
  ∧ calls v' = calls v ∧ selectedType v' = selectedType v.
Proof.
  induction rest as [|[gap value] rest IH]; intros keyword v Hd Hall; [done|].
  apply Forall_cons in Hall as [Hgap Hall]. simpl in Hgap.
  destruct (elapse_before_deadline gap _ _ v Hd) as (Hd1 & Hn1 & Hc1 & Ht1 & _); [lia|].
  cbn [foldl fst snd].
  set (v1 := handleSearchChange value (elapse p gap v)).
  destruct (IH value v1) as (Hd2 & Hc2 & Ht2); [done|done|].
  rewrite Hd2, Hc2, Ht2. repeat split; [|done..].
  cbn [map snd]. rewrite last_cons. by destruct (last (map snd rest)).
Qed.

(** C7. Debounce coalescing: a burst of keyword edits, each one within the
    quiet period of the previous one, followed by silence, triggers exactly
    one fetch, whose keyword is the last value of the burst. *)
Theorem debounce_coalescing first rest d v :
  Forall (fun e => e.1 < DEBOUNCE_DELAY) rest →
  DEBOUNCE_DELAY ≤ d →
  let v' := elapse p d (burst p first rest v) in
  calls v' = calls v ++ [FetchRecords (accountId p) (domainId p)
                           (Some (final_keyword first rest))
                           (Some (selectedType v))]
  ∧ debounce v' = None.
Proof.
  intros Hall Hd. unfold burst, final_keyword.
  destruct (burst_pending rest first (handleSearchChange first v))
    as (Hp & Hc & Ht); [done|done|].
  set (vb := foldl _ _ rest) in *.
  destruct (elapse_to_deadline d _ _ vb Hp) as (Hn & Hcalls & _); [lia|].
  cbv zeta in *. by rewrite Hn, Hcalls, Hc, Ht.
Qed.

End Debounce.

(** Typing "e", "ex", "exa" 100 ms apart and then pausing: one fetch, for
    "exa". *)
Lemma debounce_coalescing_witness :
  let p := DnsRecordTable.mkProps "acc" "example.com" in
  let rest := [(100, "ex"); (100, "exa")] in
  (Forall (fun e : nat * string => e.1 < DnsRecordTable.DEBOUNCE_DELAY) rest
   ∧ DnsRecordTable.DEBOUNCE_DELAY ≤ 300)
  ∧ DnsRecordTable.calls
      (DnsRecordTable.elapse p 300
         (DnsRecordTable.burst p "e" rest DnsRecordTable.initView))
    = [DnsRecordTable.FetchRecords "acc" "example.com" (Some "exa") (Some empty_str)].
Proof.
  intros p rest.
  assert (Forall (fun e : nat * string => e.1 < DnsRecordTable.DEBOUNCE_DELAY) rest) as Hall.
  { repeat constructor; unfold DnsRecordTable.DEBOUNCE_DELAY; simpl; lia. }
  assert (DnsRecordTable.DEBOUNCE_DELAY ≤ 300) as Hd by reflexivity.
  split; [by split|].
  exact (proj1 (debounce_coalescing p "e" rest 300 DnsRecordTable.initView Hall Hd)).
Defined.

Section FilterButtons.
Import DnsRecordTable.
Variable p : Props.

(** C4 (as amended). A filter-button action (a type-filter change, and
    likewise clear-filters) fetches immediately, exactly once, with the new
    filters. It does not touch the timer of the debounced search: a pending
    debounced fetch is not cancelled and still fires at its deadline. *)
Theorem filter_action_fetches_immediately v type :
  let newType := if decide (selectedType v = type) then empty_str else type in
  let v1 := handleTypeChange p type v in
  let v2 := clearFilters p v in
  (calls v1 = calls v ++ [FetchRecords (accountId p) (domainId p)
                            (Some (searchInput v)) (Some newType)]
   ∧ selectedType v1 = newType
   ∧ debounce v1 = debounce v)
  ∧ (calls v2 = calls v ++ [FetchRecords (accountId p) (domainId p)
                              (Some empty_str) (Some empty_str)]
     ∧ searchInput v2 = empty_str ∧ selectedType v2 = empty_str
     ∧ debounce v2 = debounce v)
  ∧ ∀ deadline keyword d,
      debounce v = Some (deadline, keyword) → deadline ≤ now v + d →
      calls (elapse p d v1)
      = calls v ++ [FetchRecords (accountId p) (domainId p)
                      (Some (searchInput v)) (Some newType);
                    FetchRecords (accountId p) (domainId p)
                      (Some keyword) (Some newType)].
Proof.
  intros newType v1 v2. split; [done|]. split; [done|].
  intros deadline keyword d Hd Hle.
  destruct (elapse_to_deadline p d deadline keyword v1) as (_ & Hc & _); [done|done|].
  cbv zeta in Hc. rewrite Hc. subst v1. simpl. by rewrite <- app_assoc.
Qed.

End FilterButtons.

(** What the specification states of the filter buttons fails here: "e" is
    typed, then the type filter "A" is chosen before the quiet period is over. The filter action fetches at
    once and the timer stays pending; when the quiet period ends the
    debounced fetch fires as well, with the very same arguments. *)
Lemma filter_action_leaves_debounce_pending :
  let p := DnsRecordTable.mkProps "acc" "example.com" in
  let typed := DnsRecordTable.handleSearchChange "e" DnsRecordTable.initView in
  let filtered := DnsRecordTable.handleTypeChange p "A" (DnsRecordTable.elapse p 100 typed) in
  let later := DnsRecordTable.elapse p 200 filtered in
  DnsRecordTable.debounce filtered = Some (300, "e")
  ∧ DnsRecordTable.calls filtered
    = [DnsRecordTable.FetchRecords "acc" "example.com" (Some "e") (Some "A")]
  ∧ DnsRecordTable.calls later
    = [DnsRecordTable.FetchRecords "acc" "example.com" (Some "e") (Some "A");
       DnsRecordTable.FetchRecords "acc" "example.com" (Some "e") (Some "A")].
Proof. repeat split. Qed.

(* ===================================================================== *)
(** * The sorted projection                                                *)
(* ===================================================================== *)

Section SortedProjection.
Import DnsRecordTable.
Variable localeCompare : string → string → Z.

Lemma insert_by_perm {A} (cmp : A → A → Z) x l :
  insert_by cmp x l ≡ₚ x :: l.
Proof.
  induction l as [|y l IH]; simpl; [done|].
  destruct (cmp x y <=? 0)%Z; [done|].
  rewrite IH. apply perm_swap.
Qed.

Lemma sort_by_perm {A} (cmp : A → A → Z) (l : list A) : sort_by cmp l ≡ₚ l.
Proof.
  induction l as [|x l IH]; simpl; [done|].
  rewrite insert_by_perm. by rewrite IH.
Qed.

(** [[...a]] allocates: the copy is an array that did not exist, it holds
    the elements of [a], and no existing array is touched. *)
Lemma spread_fresh a h :
  let '(copy, h') := spread a h in
  h !! copy = None ∧ deref h' copy = deref h a
  ∧ ∀ l, l ≠ copy → h' !! l = h !! l.
Proof.
  unfold spread. simpl.
  assert (h !! fresh (dom h) = None) as Hfresh.
  { apply not_elem_of_dom. apply is_fresh. }
  split; [done|]. split.
  - unfold deref at 1. by rewrite lookup_insert_eq.
  - intros l Hne. by rewrite lookup_insert_ne.
Qed.

(** C9. The sorted projection is read-only. With no sort field or no sort
    direction, [sortedRecords] is the store's [records] array itself, and
    the heap is unchanged. With a sort active it is a newly allocated array
    holding a permutation of [records]. In both cases [records], and every
    other array that existed, is left as it was. *)
Theorem sortedRecords_read_only sf sd records h :
  is_Some (h !! records) →
  let '(sorted, h') := sortedRecords localeCompare sf sd records h in
  h' !! records = h !! records
  ∧ (∀ l, is_Some (h !! l) → h' !! l = h !! l)
  ∧ (sf = None ∨ sd = None → sorted = records ∧ h' = h)
  ∧ (is_Some sf ∧ is_Some sd →
     sorted ≠ records ∧ h !! sorted = None
     ∧ deref h' sorted ≡ₚ deref h records).
Proof.
  intros Hrec. unfold sortedRecords.
  assert (∀ (sorted : nat) (h' : Heap), sorted = records → h' = h →
            ¬ (is_Some sf ∧ is_Some sd) →
            h' !! records = h !! records
            ∧ (∀ l, is_Some (h !! l) → h' !! l = h !! l)
            ∧ (sf = None ∨ sd = None → sorted = records ∧ h' = h)
            ∧ (is_Some sf ∧ is_Some sd →
               sorted ≠ records ∧ h !! sorted = None
               ∧ deref h' sorted ≡ₚ deref h records)) as Hoff.
  { intros sorted h' -> -> Hno. repeat split; try done. }
  destruct sf as [field|], sd as [direction|];
    try (apply Hoff; [done|done|intros [[? ?] [? ?]]; done]).
  clear Hoff.
  pose proof (spread_fresh records h) as Hs.
  destruct (spread records h) as [copy h1]. destruct Hs as (Hfresh & Hcopy & Hframe).
  unfold sort_in_place.
  assert (copy ≠ records) as Hne.
  { intros ->. rewrite Hfresh in Hrec. by destruct Hrec. }
  split; [by rewrite lookup_insert_ne, Hframe|]. split.
  - intros l Hl. assert (l ≠ copy) by (intros ->; rewrite Hfresh in Hl; by destruct Hl).
    by rewrite lookup_insert_ne, Hframe.
  - split; [by intros [?|?]|]. intros _. split; [done|]. split; [done|].
    unfold deref at 1. rewrite lookup_insert_eq. simpl.
    by rewrite sort_by_perm, Hcopy.
Qed.

End SortedProjection.

(** Two records sorted by descending TTL: the result is a new array, the
    store's array still holds the records in server order. *)
Lemma sortedRecords_read_only_witness :
  let r1 := DnsStore.mkDnsRecord "1" "A" "www" "1.1.1.1" 300 in
  let r2 := DnsStore.mkDnsRecord "2" "MX" "mail" "2.2.2.2" 3600 in
  let h : DnsRecordTable.Heap := {[ 0 := [r1; r2] ]} in
  let sf := Some DnsRecordTable.SortTtl in
  let sd := Some DnsRecordTable.Desc in
  is_Some (h !! 0)
  ∧ (DnsRecordTable.sortedRecords DnsRecordTable.codePointCompare sf sd 0 h).2 !! 0 = Some [r1; r2]
  ∧ (DnsRecordTable.sortedRecords DnsRecordTable.codePointCompare sf sd 0 h).1 ≠ 0.
Proof.
  intros r1 r2 h sf sd.
  assert (is_Some (h !! 0)) as Hrec by (eexists; reflexivity).
  pose proof (sortedRecords_read_only DnsRecordTable.codePointCompare sf sd 0 h Hrec) as H.
  destruct (DnsRecordTable.sortedRecords DnsRecordTable.codePointCompare sf sd 0 h) as [sorted h'].
  destruct H as (Hsame & _ & _ & Hsorted). cbn [fst snd].
  split; [done|]. split; [by rewrite Hsame|].
  apply Hsorted. by split; eexists.
Defined.

Example sortedRecords_by_ttl_desc :
  let r1 := DnsStore.mkDnsRecord "1" "A" "www" "1.1.1.1" 300 in
  let r2 := DnsStore.mkDnsRecord "2" "MX" "mail" "2.2.2.2" 3600 in
  let h : DnsRecordTable.Heap := {[ 0 := [r1; r2] ]} in
  let '(sorted, h') :=
    DnsRecordTable.sortedRecords DnsRecordTable.codePointCompare
      (Some DnsRecordTable.SortTtl) (Some DnsRecordTable.Desc) 0 h in
  sorted = 1 ∧ h' !! 1 = Some [r2; r1] ∧ h' !! 0 = Some [r1; r2].
Proof. vm_compute. repeat split. Qed.

(* ===================================================================== *)
(** * Deleting an account                                                  *)
(* ===================================================================== *)

Section DeleteAccount.
Import AccountStore.

Lemma trace_emit e w : trace (emit e w) = trace w ++ [e].
Proof. done. Qed.

Lemma since_app w w' l : trace w' = trace w ++ l → since w w' = l.
Proof. intros H. unfold since. rewrite H. apply drop_app_length. Qed.

Lemma step_settle_delete w rid id r :
  pending w !! rid = Some (KDeleteAccount id) →
  step w (SettleVoid rid r) = deleteAccount_resume id r (settle rid w).
Proof. intros H. simpl. by rewrite H. Qed.

Lemma step_call_delete_pending w id :
  pending (step w (CallDeleteAccount id)) !! nextReq w = Some (KDeleteAccount id).
Proof. simpl. apply lookup_insert_eq. Qed.

(** The continuation of [deleteAccount] when the deletion is not confirmed:
    only [isDeleting] is written. *)
Lemma deleteAccount_resume_failure id r w :
  confirmed r = false →
  let w' := deleteAccount_resume id r w in
  store w' = with_isDeleting false (store w)
  ∧ domainCaches w' = domainCaches w
  ∧ recentDomains w' = recentDomains w
  ∧ last (trace w') = Some (Returned (DeleteAccountOf id) (Some false)).
Proof.
  intros Hr. destruct r as [response|err]; simpl in Hr.
  - unfold deleteAccount_resume. rewrite Hr. simpl.
    repeat split. by rewrite last_snoc.
  - simpl. repeat split. by rewrite last_snoc.
Qed.

(** The continuation of [deleteAccount] when the deletion is confirmed. *)
Lemma deleteAccount_resume_success id response w :
  success response = true →
  let w' := deleteAccount_resume id (Resolved response) w in
  store w' = with_isDeleting false (removeAccount id (store w))
  ∧ domainCaches w' = filter (fun kv => kv.1.1 ≠ id) (domainCaches w)
  ∧ recentDomains w' = filter (fun k => k.1 ≠ id) (recentDomains w)
  ∧ pending w' = pending w ∧ timers w' = timers w
  ∧ trace w' = trace w ++
      [StoreSet ["accounts"; "selectedAccountId"];
       ClearAccountCache id;
       RemoveRecentDomainsByAccount id;
       ToastSuccess (I18n "account.deleteSuccess");
       StoreSet ["isDeleting"];
       Returned (DeleteAccountOf id) (Some true)].
Proof.
  intros Hr. unfold deleteAccount_resume. rewrite Hr. simpl.
  repeat split. by rewrite <- !app_assoc.
Qed.

(** C3. When the remote side confirms the deletion of an account, one turn
    of the event loop removes the account from the list and purges every
    cache keyed by it and every recently viewed domain that references it:
    the three updates follow one another with no suspension point in
    between (no request is sent, nothing is left pending by this turn), so
    no other handler can observe the list without the account and a cache
    that still belongs to it. Caches of other accounts are untouched. *)
Theorem account_deletion_purges w rid id response :
  pending w !! rid = Some (KDeleteAccount id) →
  success response = true →
  let w' := step w (SettleVoid rid (Resolved response)) in
  (∀ a, a ∈ accounts (store w') → acc_id a ≠ id)
  ∧ (∀ key c, domainCaches w' !! key = Some c → key.1 ≠ id)
  ∧ (∀ key, key ∈ recentDomains w' → key.1 ≠ id)
  ∧ (∀ key, key.1 ≠ id → domainCaches w' !! key = domainCaches w !! key)
  ∧ (∀ key, key.1 ≠ id → key ∈ recentDomains w' ↔ key ∈ recentDomains w)
  ∧ since w w' =
      [StoreSet ["accounts"; "selectedAccountId"];
       ClearAccountCache id;
       RemoveRecentDomainsByAccount id;
       ToastSuccess (I18n "account.deleteSuccess");
       StoreSet ["isDeleting"];
       Returned (DeleteAccountOf id) (Some true)]
  ∧ requests w' = requests w
  ∧ pending w' = delete rid (pending w).
Proof.
  intros Hp Hr w'. subst w'. rewrite (step_settle_delete _ _ _ _ Hp).
  destruct (deleteAccount_resume_success id response (settle rid w) Hr)
    as (Hs & Hc & Hrec & Hpend & _ & Ht).
  rewrite Hs, Hc, Hrec, Hpend. simpl. repeat split.
  - intros a Ha. by apply list_elem_of_filter in Ha as [? _].
  - intros key c Hk. by apply map_lookup_filter_Some in Hk as [_ ?].
  - intros key Hk. by apply list_elem_of_filter in Hk as [? _].
  - intros key Hk. destruct (domainCaches w !! key) as [c|] eqn:Hc'.
    + by apply map_lookup_filter_Some.
    + apply map_lookup_filter_None. by left.
  - intros Hk. by apply list_elem_of_filter in Hk as [_ ?].
  - intros Hk. by apply list_elem_of_filter.
  - by apply since_app.
  - unfold requests. rewrite Ht. simpl.
    rewrite List.filter_app. simpl. by rewrite app_nil_r.
Qed.

(** C10. [deleteAccount] is atomic on failure and frames its effect on
    success. If the remote delete answers with a failure or throws, the
    accounts list, the selected account, the caches and the recent domains
    are what they were before the call, and the action returns false. If it
    succeeds, the accounts list is the former one without the entries of
    that id, in the same order; the selected account becomes null if it was
    the deleted one and is unchanged otherwise; the action returns true. *)
Theorem deleteAccount_atomic w id r :
  let w1 := step w (CallDeleteAccount id) in
  let w2 := step w1 (SettleVoid (nextReq w) r) in
  last (trace w2) = Some (Returned (DeleteAccountOf id) (Some (confirmed r)))
  ∧ isDeleting (store w1) = true ∧ isDeleting (store w2) = false
  ∧ (confirmed r = false →
     accounts (store w2) = accounts (store w)
     ∧ selectedAccountId (store w2) = selectedAccountId (store w)
     ∧ domainCaches w2 = domainCaches w
     ∧ recentDomains w2 = recentDomains w)
  ∧ (confirmed r = true →
     accounts (store w2) = filter (fun a => acc_id a ≠ id) (accounts (store w))
     ∧ (selectedAccountId (store w) = Some id → selectedAccountId (store w2) = None)
     ∧ (selectedAccountId (store w) ≠ Some id →
        selectedAccountId (store w2) = selectedAccountId (store w))).
Proof.
  intros w1 w2. subst w2.
  rewrite (step_settle_delete w1 _ id r (step_call_delete_pending w id)).
  destruct (confirmed r) eqn:Hr.
  - destruct r as [response|err]; [|done]. simpl in Hr.
    destruct (deleteAccount_resume_success id response (settle (nextReq w) w1) Hr)
      as (Hs & _ & _ & _ & _ & Ht).
    rewrite Hs, Ht. rewrite last_app. simpl.
    repeat split; try done.
    + intros Hsel. by rewrite decide_True.
    + intros Hsel. by rewrite decide_False.
  - destruct (deleteAccount_resume_failure id r (settle (nextReq w) w1) Hr)
      as (Hs & Hc & Hrec & Ht).
    rewrite Hs, Hc, Hrec, Ht. by repeat split.
Qed.

End DeleteAccount.

(** The caches of (A, d1), (A, d2) and (B, d1): deleting account A removes
    the first two and keeps the third. *)
Lemma account_deletion_purges_witness :
  let a := AccountStore.mkAccount "A" "first" "active" in
  let b := AccountStore.mkAccount "B" "second" "active" in
  let w0 :=
    AccountStore.mkWorld
      (AccountStore.mkState [a; b] (Some "A") false false false None)
      {[ ("A", "d1") := DnsStore.emptyCache;
         ("A", "d2") := DnsStore.emptyCache;
         ("B", "d1") := DnsStore.emptyCache ]}
      [("A", "d1"); ("B", "d1")] ∅ 0 ∅ 0 [] in
  let w := AccountStore.step w0 (AccountStore.CallDeleteAccount "A") in
  let response := AccountStore.mkResponse true (None : option unit) None in
  let w' := AccountStore.step w (AccountStore.SettleVoid 0 (AccountStore.Resolved response)) in
  (AccountStore.pending w !! 0 = Some (AccountStore.KDeleteAccount "A")
   ∧ AccountStore.success response = true)
  ∧ AccountStore.domainCaches w' !! ("B", "d1") = AccountStore.domainCaches w !! ("B", "d1")
  ∧ AccountStore.requests w' = AccountStore.requests w.
Proof.
  intros a b w0 w response w'.
  assert (AccountStore.pending w !! 0 = Some (AccountStore.KDeleteAccount "A")) as Hp
    by reflexivity.
  assert (AccountStore.success response = true) as Hr by reflexivity.
  destruct (account_deletion_purges w 0 "A" response Hp Hr)
    as (_ & _ & _ & Hother & _ & _ & Hreq & _).
  split; [by split|]. split; [|exact Hreq].
  apply Hother. simpl. discriminate.
Defined.

Example account_deletion_example :
  let a := AccountStore.mkAccount "A" "first" "active" in
  let b := AccountStore.mkAccount "B" "second" "active" in
  let w0 :=
    AccountStore.mkWorld
      (AccountStore.mkState [a; b] (Some "A") false false false None)
      {[ ("A", "d1") := DnsStore.emptyCache;
         ("A", "d2") := DnsStore.emptyCache;
         ("B", "d1") := DnsStore.emptyCache ]}
      [("A", "d1"); ("B", "d1")] ∅ 0 ∅ 0 [] in
  let w' :=
    AccountStore.run w0
      [AccountStore.CallDeleteAccount "A";
       AccountStore.SettleVoid 0
         (AccountStore.Resolved (AccountStore.mkResponse true None None))] in
  AccountStore.accounts (AccountStore.store w') = [b]
  ∧ AccountStore.selectedAccountId (AccountStore.store w') = None
  ∧ AccountStore.domainCaches w' !! ("A", "d1") = None
  ∧ AccountStore.domainCaches w' !! ("A", "d2") = None
  ∧ AccountStore.domainCaches w' !! ("B", "d1") = Some DnsStore.emptyCache
  ∧ AccountStore.recentDomains w' = [("B", "d1")].
Proof. vm_compute. repeat split. Qed.

(* ===================================================================== *)
(** * The restore poller                                                   *)
(* ===================================================================== *)

Section RestorePoller.
Import AccountStore.

Lemma count_since (f : Effect → bool) w w' l :
  trace w' = trace w ++ l →
  length (List.filter f (trace w'))
  = length (List.filter f (trace w)) + length (List.filter f l).
Proof. intros ->. by rewrite List.filter_app, length_app. Qed.

Lemma step_settle_check w rid r :
  pending w !! rid = Some KCheckRestoreStatus →
  step w (SettleBool rid r) = checkRestoreStatus_resume r (settle rid w).
Proof. intros H. simpl. by rewrite H. Qed.

Lemma step_settle_poll w rid poll r :
  pending w !! rid = Some (KPoll poll) →
  step w (SettleBool rid r) = poll_resume poll r (settle rid w).
Proof. intros H. simpl. by rewrite H. Qed.

(** A poll that reports completion stops its timer, leaves the restoring
    state and triggers the initial load: once for this response. *)
Lemma poll_completed w rid poll :
  pending w !! rid = Some (KPoll poll) →
  let w' := step w (SettleBool rid (Resolved true)) in
  timers w' = timers w ∖ {[poll]}
  ∧ isRestoring (store w') = false
  ∧ loads w' = S (loads w)
  ∧ since w w' =
      [ClearInterval poll; StoreSet ["isRestoring"]; Called FetchAccounts;
       StoreSet ["isLoading"; "error"]; Invoke (nextReq w) ListAccounts].
Proof.
  intros Hp w'. subst w'. rewrite (step_settle_poll _ _ _ _ Hp).
  assert (trace (poll_resume poll (Resolved true) (settle rid w))
          = trace w ++ [ClearInterval poll; StoreSet ["isRestoring"]; Called FetchAccounts;
                        StoreSet ["isLoading"; "error"]; Invoke (nextReq w) ListAccounts])
    as Ht by (simpl; by rewrite <- !app_assoc).
  repeat split; [|by apply since_app].
  unfold loads. rewrite (count_since _ _ _ _ Ht). simpl. lia.
Qed.

(** A poll that fails stops its timer, leaves the restoring state (it fails
    open) and logs the error. *)
Lemma poll_failed w rid poll err :
  pending w !! rid = Some (KPoll poll) →
  let w' := step w (SettleBool rid (Rejected err)) in
  timers w' = timers w ∖ {[poll]}
  ∧ isRestoring (store w') = false
  ∧ diagnostics w' = S (diagnostics w)
  ∧ loads w' = loads w
  ∧ since w w' =
      [LoggerError "Failed to check restore status:" err; ClearInterval poll;
       StoreSet ["isRestoring"]].
Proof.
  intros Hp w'. subst w'. rewrite (step_settle_poll _ _ _ _ Hp).
  assert (trace (poll_resume poll (Rejected err) (settle rid w))
          = trace w ++ [LoggerError "Failed to check restore status:" err;
                        ClearInterval poll; StoreSet ["isRestoring"]])
    as Ht by (simpl; by rewrite <- !app_assoc).
  repeat split; [| |by apply since_app].
  - unfold diagnostics. rewrite (count_since _ _ _ _ Ht). simpl. lia.
  - unfold loads. rewrite (count_since _ _ _ _ Ht). simpl. lia.
Qed.

(** C2 (as amended). Starting the restore poller is not guarded by the
    restore state: in every state, also when a poll is running or the
    restore has completed, it sends one [is_restore_completed] request. If
    the answer is that the restore has completed, the initial load is
    triggered, no timer is created and [isRestoring] is left as it is. If
    not, [isRestoring] is set and a new polling timer is created, besides
    the timers that are already active. *)
Theorem checkRestoreStatus_unguarded w :
  let w1 := step w CallCheckRestoreStatus in
  let completed := step w1 (SettleBool (nextReq w) (Resolved true)) in
  let running := step w1 (SettleBool (nextReq w) (Resolved false)) in
  (since w w1 = [Called CheckRestoreStatus; Invoke (nextReq w) IsRestoreCompleted]
   ∧ requests w1 = S (requests w)
   ∧ store w1 = store w ∧ timers w1 = timers w)
  ∧ (timers completed = timers w
     ∧ isRestoring (store completed) = isRestoring (store w)
     ∧ loads completed = S (loads w))
  ∧ (timers running = {[nextTimer w]} ∪ timers w
     ∧ isRestoring (store running) = true
     ∧ loads running = loads w
     ∧ since w1 running =
         [StoreSet ["isRestoring"]; SetInterval (nextTimer w) POLL_INTERVAL;
          Returned CheckRestoreStatus None]
     ∧ ((∀ t, t ∈ timers w → t < nextTimer w) →
        size (timers running) = S (size (timers w)))).
Proof.
  intros w1 completed running.
  assert (pending w1 !! nextReq w = Some KCheckRestoreStatus) as Hp
    by apply lookup_insert_eq.
  assert (trace w1 = trace w ++ [Called CheckRestoreStatus;
                                 Invoke (nextReq w) IsRestoreCompleted]) as Ht1
    by (simpl; by rewrite <- !app_assoc).
  split.
  { repeat split; [by apply since_app|].
    unfold requests. rewrite (count_since _ _ _ _ Ht1). simpl. lia. }
  subst completed running. rewrite !(step_settle_check _ _ _ Hp). split.
  - assert (trace (checkRestoreStatus_resume (Resolved true) (settle (nextReq w) w1))
            = trace w ++ [Called CheckRestoreStatus; Invoke (nextReq w) IsRestoreCompleted;
                          Called FetchAccounts; StoreSet ["isLoading"; "error"];
                          Invoke (S (nextReq w)) ListAccounts;
                          Returned CheckRestoreStatus None]) as Ht
      by (simpl; by rewrite <- !app_assoc).
    repeat split. unfold loads. rewrite (count_since _ _ _ _ Ht). simpl. lia.
  - assert (trace (checkRestoreStatus_resume (Resolved false) (settle (nextReq w) w1))
            = trace w1 ++ [StoreSet ["isRestoring"]; SetInterval (nextTimer w) POLL_INTERVAL;
                           Returned CheckRestoreStatus None]) as Ht
      by (simpl; by rewrite <- !app_assoc).
    repeat split.
    + unfold loads. rewrite (count_since _ _ _ _ Ht), (count_since _ _ _ _ Ht1).
      simpl. lia.
    + by apply since_app.
    + intros Hfresh. simpl. rewrite size_union, size_singleton; [done|].
      apply disjoint_singleton_l. intros Hin. specialize (Hfresh _ Hin). lia.
Qed.

End RestorePoller.

(** What the specification states of a second start fails here. The poller
    is started and the restore is not completed: the state is restoring and one timer runs. Starting the
    poller again sends another request and, on the same answer, leaves two
    timers running. After the restore has completed and the accounts are
    loaded, starting it once more sends a request again and triggers the
    load again. *)
Lemma checkRestoreStatus_restart_is_not_a_noop :
  let restoring :=
    AccountStore.run AccountStore.initWorld
      [AccountStore.CallCheckRestoreStatus;
       AccountStore.SettleBool 0 (AccountStore.Resolved false)] in
  let again :=
    AccountStore.run restoring
      [AccountStore.CallCheckRestoreStatus;
       AccountStore.SettleBool 1 (AccountStore.Resolved false)] in
  let completed :=
    AccountStore.run restoring
      [AccountStore.Tick 0;
       AccountStore.SettleBool 1 (AccountStore.Resolved true);
       AccountStore.SettleList 2
         (AccountStore.Resolved (AccountStore.mkResponse true (Some []) None))] in
  let restarted :=
    AccountStore.run completed
      [AccountStore.CallCheckRestoreStatus;
       AccountStore.SettleBool 3 (AccountStore.Resolved true)] in
  (AccountStore.restoring restoring = true
   ∧ elements (AccountStore.timers restoring) = [0]
   ∧ AccountStore.requests restoring = 1)
  ∧ (AccountStore.requests again = 2
     ∧ size (AccountStore.timers again) = 2)
  ∧ (AccountStore.restoring completed = false
     ∧ elements (AccountStore.timers completed) = []
     ∧ AccountStore.requests completed = 3
     ∧ AccountStore.loads completed = 1)
  ∧ (AccountStore.requests restarted = 5
     ∧ AccountStore.loads restarted = 2).
Proof. vm_compute. repeat split. Qed.

(** C5, at the input where the code departs from it: the restore is not
    completed at the first check, the timer ticks twice before the first
    poll is answered, and both polls report completion. The state is left
    as claimed (not restoring, no timer), but the initial load has been
    triggered twice. *)
Theorem overlapping_polls_load_twice :
  let w :=
    AccountStore.run AccountStore.initWorld
      [AccountStore.CallCheckRestoreStatus;
       AccountStore.SettleBool 0 (AccountStore.Resolved false);
       AccountStore.Tick 0;
       AccountStore.Tick 0;
       AccountStore.SettleBool 1 (AccountStore.Resolved true);
       AccountStore.SettleBool 2 (AccountStore.Resolved true)] in
  AccountStore.restoring w = false
  ∧ elements (AccountStore.timers w) = []
  ∧ AccountStore.loads w = 2.
Proof. vm_compute. repeat split. Qed.

(** Without overlap the load is triggered once: one tick, one answer. *)
Example single_poll_loads_once :
  let w :=
    AccountStore.run AccountStore.initWorld
      [AccountStore.CallCheckRestoreStatus;
       AccountStore.SettleBool 0 (AccountStore.Resolved false);
       AccountStore.Tick 0;
       AccountStore.SettleBool 1 (AccountStore.Resolved false);
       AccountStore.Tick 0;
       AccountStore.SettleBool 2 (AccountStore.Resolved true);
       AccountStore.Tick 0] in
  AccountStore.restoring w = false
  ∧ elements (AccountStore.timers w) = []
  ∧ AccountStore.loads w = 1
  ∧ AccountStore.requests w = 4.
Proof. vm_compute. repeat split. Qed.

(** C6, at the input where the code departs from it: the very first status
    check is rejected. The rejection leaves [checkRestoreStatus] through its
    promise; nothing is logged or shown, the store is not written, and the
    accounts are never loaded. *)
Theorem first_check_error_escapes :
  let w :=
    AccountStore.run AccountStore.initWorld
      [AccountStore.CallCheckRestoreStatus;
       AccountStore.SettleBool 0 (AccountStore.Rejected "transport down")] in
  AccountStore.trace w
  = [AccountStore.Called AccountStore.CheckRestoreStatus;
     AccountStore.Invoke 0 AccountStore.IsRestoreCompleted;
     AccountStore.Threw AccountStore.CheckRestoreStatus "transport down"]
  ∧ AccountStore.diagnostics w = 0
  ∧ AccountStore.store w = AccountStore.initState
  ∧ AccountStore.loads w = 0.
Proof. vm_compute. repeat split. Qed.

(** The same rejection while a poll is running leaves the poll running and
    the state restoring. *)
Example first_check_error_while_restoring :
  let w :=
    AccountStore.run AccountStore.initWorld
      [AccountStore.CallCheckRestoreStatus;
       AccountStore.SettleBool 0 (AccountStore.Resolved false);
       AccountStore.CallCheckRestoreStatus;
       AccountStore.SettleBool 1 (AccountStore.Rejected "transport down")] in
  AccountStore.restoring w = true
  ∧ elements (AccountStore.timers w) = [0]
  ∧ AccountStore.diagnostics w = 0.
Proof. vm_compute. repeat split. Qed.

(** A poll that fails does fail open. *)
Example poll_error_fails_open :
  let w :=
    AccountStore.run AccountStore.initWorld
      [AccountStore.CallCheckRestoreStatus;
       AccountStore.SettleBool 0 (AccountStore.Resolved false);
       AccountStore.Tick 0;
       AccountStore.SettleBool 1 (AccountStore.Rejected "transport down")] in
  AccountStore.restoring w = false
  ∧ elements (AccountStore.timers w) = []
  ∧ AccountStore.diagnostics w = 1.
Proof. vm_compute. repeat split. Qed.

(* ===================================================================== *)
(** * Sorting by the column headers                                        *)
(* ===================================================================== *)

Section HeaderSort.
Import DnsRecordTable TableControls.

Lemma handleSort_consistent field v :
  sort_consistent v → sort_consistent (handleSort field v).
Proof.
  unfold sort_consistent, handleSort. intros [H1 H2].
  case_decide as Hf.
  - destruct (sortDirection v) as [[]|] eqn:Hd; simpl; rewrite ?Hf;
      first [done | rewrite H2 in Hf by done; done].
  - simpl. split; intros; done.
Qed.

(** X1. A click on a column header keeps the sort field and the sort
    direction set together: after any sequence of clicks the table is
    either unsorted (both null) or sorted by a field in a direction. *)
Theorem clicks_consistent v l :
  sort_consistent v → sort_consistent (clicks v l).
Proof.
  revert v. induction l as [|field l IH]; intros v Hv; simpl; [done|].
  apply IH. by apply handleSort_consistent.
Qed.

(** X2. Clicking one column header cycles through ascending, descending
    and unsorted: three clicks on the column restore the view, when it was
    unsorted or sorted by that column; a click on another column than the
    sorted one sorts by the clicked column, ascending. *)
Theorem handleSort_cycle v field :
  sort_consistent v →
  (sortField v = None ∨ sortField v = Some field →
   handleSort field (handleSort field (handleSort field v)) = v)
  ∧ (sortField v ≠ Some field →
     sortField (handleSort field v) = Some field
     ∧ sortDirection (handleSort field v) = Some Asc).
Proof.
  intros [H1 H2]. split.
  - intros Hf. destruct v as [si st sf sd db nw cs]. simpl in *.
    destruct Hf as [->| ->].
    + rewrite (H1 eq_refl). by destruct field.
    + destruct sd as [[]|]; [| |by specialize (H2 eq_refl)]; by destruct field.
  - intros Hf. unfold handleSort. by rewrite decide_False.
Qed.

(** X3. The header icons tell the sort state: while field and direction
    are set together, a column shows the down arrow exactly when the table
    is sorted by it descending, the up arrow exactly when ascending, and the
    neutral icon exactly when the table is not sorted by it. *)
Theorem SortIcon_tells_sort v field :
  sort_consistent v →
  (SortIcon field v = ArrowDown
   ↔ sortField v = Some field ∧ sortDirection v = Some Desc)
  ∧ (SortIcon field v = ArrowUp
     ↔ sortField v = Some field ∧ sortDirection v = Some Asc)
  ∧ (SortIcon field v = ArrowUpDown ↔ sortField v ≠ Some field).
Proof.
  intros [H1 H2]. unfold SortIcon.
  destruct (decide (sortField v ≠ Some field)) as [Hne|He].
  - repeat split; try done; intros [? ?]; done.
  - apply dec_stable in He.
    destruct (sortDirection v) as [[]|] eqn:Hd.
    + rewrite decide_True by done. repeat split; try done; intros [? ?]; done.
    + rewrite decide_False by done. repeat split; try done; intros [? ?]; done.
    + rewrite H2 in He by done. done.
Qed.

End HeaderSort.

Lemma clicks_consistent_witness :
  TableControls.sort_consistent DnsRecordTable.initView
  ∧ TableControls.sort_consistent
      (TableControls.clicks DnsRecordTable.initView
         [DnsRecordTable.SortTtl; DnsRecordTable.SortTtl; DnsRecordTable.SortName]).
Proof.
  assert (TableControls.sort_consistent DnsRecordTable.initView) as H by done.
  split; [exact H|]. exact (clicks_consistent _ _ H).
Defined.

Lemma handleSort_cycle_witness :
  let v := TableControls.handleSort DnsRecordTable.SortTtl DnsRecordTable.initView in
  TableControls.sort_consistent v
  ∧ TableControls.handleSort DnsRecordTable.SortTtl
      (TableControls.handleSort DnsRecordTable.SortTtl
         (TableControls.handleSort DnsRecordTable.SortTtl v)) = v.
Proof.
  intros v. assert (TableControls.sort_consistent v) as H by done.
  split; [exact H|].
  apply (proj1 (handleSort_cycle v DnsRecordTable.SortTtl H)). by right.
Defined.

Lemma SortIcon_tells_sort_witness :
  let v :=
    TableControls.clicks DnsRecordTable.initView
      [DnsRecordTable.SortName; DnsRecordTable.SortName] in
  TableControls.sort_consistent v
  ∧ TableControls.SortIcon DnsRecordTable.SortName v = TableControls.ArrowDown.
Proof.
  intros v. assert (TableControls.sort_consistent v) as H by done.
  split; [exact H|].
  apply (proj1 (SortIcon_tells_sort v DnsRecordTable.SortName H)). by split.
Defined.

(* ===================================================================== *)
(** * The order of the sorted projection                                   *)
(* ===================================================================== *)

Section SortOrder.
Import DnsRecordTable TableControls.

(** Inserting into a sorted list keeps it sorted, for a comparator that is
    total and transitive on "not greater". *)
Lemma insert_by_sorted {A} (cmp : A → A → Z) x l :
  (∀ a b, (cmp a b <= 0)%Z ∨ (cmp b a <= 0)%Z) →
  (∀ a b c, (cmp a b <= 0)%Z → (cmp b c <= 0)%Z → (cmp a c <= 0)%Z) →
  StronglySorted (fun a b => (cmp a b <= 0)%Z) l →
  StronglySorted (fun a b => (cmp a b <= 0)%Z) (insert_by cmp x l).
Proof.
  intros Htot Htrans. induction l as [|y l IH]; intros Hs; simpl.
  - by repeat constructor.
  - apply StronglySorted_inv in Hs as [Hs Hall].
    destruct (Z.leb_spec (cmp x y) 0) as [Hle|Hgt].
    + constructor; [by constructor|]. constructor; [done|].
      eapply Forall_impl; [exact Hall|]. intros z Hz. by eapply Htrans.
    + constructor; [by apply IH|].
      rewrite insert_by_perm. constructor; [|done].
      destruct (Htot x y); [lia|done].
Qed.

Lemma sort_by_sorted {A} (cmp : A → A → Z) l :
  (∀ a b, (cmp a b <= 0)%Z ∨ (cmp b a <= 0)%Z) →
  (∀ a b c, (cmp a b <= 0)%Z → (cmp b c <= 0)%Z → (cmp a c <= 0)%Z) →
  StronglySorted (fun a b => (cmp a b <= 0)%Z) (sort_by cmp l).
Proof.
  intros Htot Htrans. induction l as [|x l IH]; simpl; [constructor|].
  by apply insert_by_sorted.
Qed.

(** Elements that do not compare greater than one another keep their
    relative order. *)
Lemma insert_by_stable {A} (cmp : A → A → Z) (P : A → Prop)
    `{!∀ a, Decision (P a)} x l :
  (∀ a b, P a → P b → (cmp a b <= 0)%Z) →
  filter P (insert_by cmp x l) = filter P (x :: l).
Proof.
  intros HP. induction l as [|y l IH]; simpl; [done|].
  destruct (Z.leb_spec (cmp x y) 0) as [Hle|Hgt]; [done|].
  rewrite filter_cons, IH, !filter_cons.
  destruct (decide (P y)) as [Hy|Hy], (decide (P x)) as [Hx|Hx]; try done.
  specialize (HP x y Hx Hy). lia.
Qed.

Lemma sort_by_stable {A} (cmp : A → A → Z) (P : A → Prop)
    `{!∀ a, Decision (P a)} l :
  (∀ a b, P a → P b → (cmp a b <= 0)%Z) →
  filter P (sort_by cmp l) = filter P l.
Proof.
  intros HP. induction l as [|x l IH]; simpl; [done|].
  rewrite insert_by_stable by done. by rewrite !filter_cons, IH.
Qed.

Lemma StronglySorted_impl {A} (R R' : A → A → Prop) l :
  (∀ a b, R a b → R' a b) → StronglySorted R l → StronglySorted R' l.
Proof.
  intros Himpl Hs. induction Hs as [|a l Hs IH Hall]; constructor; [done|].
  eapply Forall_impl; [exact Hall|]. intros b. apply Himpl.
Qed.

Lemma sortedRecords_deref localeCompare field direction records h :
  let '(sorted, h') :=
    sortedRecords localeCompare (Some field) (Some direction) records h in
  deref h' sorted
  = sort_by (compareRecords localeCompare field direction) (deref h records).
Proof.
  unfold sortedRecords, spread, sort_in_place. simpl.
  unfold deref at 1. rewrite lookup_insert_eq. simpl.
  unfold deref at 1. by rewrite lookup_insert_eq.
Qed.

(** X4. Sorted by TTL, the table shows the records in non-decreasing TTL
    order when ascending and in non-increasing TTL order when descending. *)
Theorem sortedRecords_ttl_ordered localeCompare direction records h :
  let '(sorted, h') :=
    sortedRecords localeCompare (Some SortTtl) (Some direction) records h in
  StronglySorted (ttl_order direction) (deref h' sorted).
Proof.
  pose proof (sortedRecords_deref localeCompare SortTtl direction records h) as Hd.
  destruct (sortedRecords _ _ _ _ _) as [sorted h']. rewrite Hd.
  pose proof (sort_by_sorted (compareRecords localeCompare SortTtl direction)
                (deref h records)) as Hs.
  destruct direction; simpl in *.
  - eapply StronglySorted_impl; [|apply Hs]; simpl; intros; lia.
  - eapply StronglySorted_impl; [|apply Hs]; simpl; intros; lia.
Qed.

(** X5. The sort is stable in both directions: records that have the same
    value in the sorted column stay in the order of the store's list (so a
    descending sort is not the reverse of the ascending one). For the text
    columns this needs a collation that finds a string equal to itself. *)
Theorem sortedRecords_stable localeCompare field direction records h x :
  (∀ s, localeCompare s s = 0%Z) →
  let '(sorted, h') :=
    sortedRecords localeCompare (Some field) (Some direction) records h in
  filter (fun r => column field r = x) (deref h' sorted)
  = filter (fun r => column field r = x) (deref h records).
Proof.
  intros Hrefl.
  pose proof (sortedRecords_deref localeCompare field direction records h) as Hd.
  destruct (sortedRecords _ _ _ _ _) as [sorted h']. rewrite Hd.
  apply sort_by_stable. intros a b Ha Hb. rewrite <- Hb in Ha.
  destruct field, direction; simpl in *; simplify_eq;
    rewrite ?Ha, ?Hrefl; lia.
Qed.

End SortOrder.

Lemma codePointCompare_refl s : DnsRecordTable.codePointCompare s s = 0%Z.
Proof.
  unfold DnsRecordTable.codePointCompare.
  pose proof (String.compare_antisym s s) as H.
  by destruct (String.compare s s).
Qed.

(** Three records, two of them of TTL 300: sorted by TTL descending, the
    two keep their order. *)
Lemma sortedRecords_stable_witness :
  let r1 := DnsStore.mkDnsRecord "1" "A" "www" "1.1.1.1" 300 in
  let r2 := DnsStore.mkDnsRecord "2" "MX" "mail" "2.2.2.2" 3600 in
  let r3 := DnsStore.mkDnsRecord "3" "A" "api" "3.3.3.3" 300 in
  let h : DnsRecordTable.Heap := {[ 0 := [r1; r2; r3] ]} in
  (∀ s, DnsRecordTable.codePointCompare s s = 0%Z)
  ∧ filter (fun r => TableControls.column DnsRecordTable.SortTtl r = inr 300%Z)
      (DnsRecordTable.deref
         (DnsRecordTable.sortedRecords DnsRecordTable.codePointCompare
            (Some DnsRecordTable.SortTtl) (Some DnsRecordTable.Desc) 0 h).2
         (DnsRecordTable.sortedRecords DnsRecordTable.codePointCompare
            (Some DnsRecordTable.SortTtl) (Some DnsRecordTable.Desc) 0 h).1)
    = [r1; r3].
Proof.
  intros r1 r2 r3 h. split; [exact codePointCompare_refl|].
  pose proof (sortedRecords_stable DnsRecordTable.codePointCompare
                DnsRecordTable.SortTtl DnsRecordTable.Desc 0 h (inr 300%Z)
                codePointCompare_refl) as H.
  destruct (DnsRecordTable.sortedRecords _ _ _ _ _) as [sorted h'].
  cbn [fst snd]. rewrite H. reflexivity.
Defined.

(* ===================================================================== *)
(** * What is fetched and what the toolbar shows                           *)
(* ===================================================================== *)

Section ShownFilters.
Import DnsRecordTable TableControls.
Variable p : Props.

Lemma issued_app v v' l : calls v' = calls v ++ l → issued v v' = l.
Proof. intros H. unfold issued. rewrite H. apply drop_app_length. Qed.

Lemma input_pending_shown v i : pending_shown v → pending_shown (input p v i).
Proof.
  intros Hv deadline keyword. destruct i as [value|d|type|]; simpl.
  - by intros [= _ <-].
  - unfold elapse. destruct (debounce v) as [[dl kw]|] eqn:Hd; simpl.
    + destruct (dl <=? now v + d); simpl; [done|].
      rewrite Hd. intros [= -> ->]. by eapply Hv.
    + by rewrite Hd.
  - apply Hv.
  - apply Hv.
Qed.

Lemma inputs_pending_shown l v : pending_shown v → pending_shown (inputs p v l).
Proof.
  revert v. induction l as [|i l IH]; intros v Hv; simpl; [done|].
  apply IH. by apply input_pending_shown.
Qed.

(** X6. As long as clear-filters is not used, every fetch the table issues
    (debounced search, type filter, refresh) asks for exactly the keyword
    and the type that the toolbar shows once the input is handled. *)
Theorem fetches_match_toolbar l i :
  let v := inputs p initView l in
  let v' := input p v i in
  Forall (fun c => c = FetchRecords (accountId p) (domainId p)
                        (Some (searchInput v')) (Some (selectedType v')))
         (issued v v').
Proof.
  intros v v'.
  assert (pending_shown v) as Hv by (by apply inputs_pending_shown).
  subst v'. destruct i as [value|d|type|]; simpl.
  - rewrite (issued_app v _ []); [done|]. simpl. by rewrite app_nil_r.
  - unfold elapse. destruct (debounce v) as [[dl kw]|] eqn:Hd; simpl.
    + destruct (dl <=? now v + d); simpl.
      * erewrite issued_app; [|done]. repeat constructor.
        by rewrite (Hv dl kw Hd).
      * rewrite (issued_app v _ []); [done|]. simpl. by rewrite app_nil_r.
    + rewrite (issued_app v _ []); [done|]. simpl. by rewrite app_nil_r.
  - erewrite issued_app; [|done]. by repeat constructor.
  - erewrite issued_app; [|done]. by repeat constructor.
Qed.

(** X7. Clear-filters does not win over a pending search: a keyword is
    typed and, within the quiet period, the filters are cleared. The clear
    fetches the unfiltered list at once; when the quiet period ends the
    debounced search still fires, for the typed keyword, although the search
    box is empty. The last fetch is the one for the old keyword. *)
Theorem clearFilters_then_stale_search v keyword gap d :
  gap < DEBOUNCE_DELAY →
  DEBOUNCE_DELAY ≤ gap + d →
  let v' := elapse p d (clearFilters p (elapse p gap (handleSearchChange keyword v))) in
  searchInput v' = empty_str
  ∧ selectedType v' = empty_str
  ∧ calls v' = calls v ++
      [FetchRecords (accountId p) (domainId p) (Some empty_str) (Some empty_str);
       FetchRecords (accountId p) (domainId p) (Some keyword) (Some empty_str)].
Proof.
  intros Hgap Hd v'. subst v'.
  set (v1 := handleSearchChange keyword v).
  destruct (elapse_before_deadline p gap (now v + DEBOUNCE_DELAY) keyword v1)
    as (Hd1 & Hn1 & Hc1 & _); [done|simpl; lia|].
  set (v2 := elapse p gap v1) in *.
  set (v3 := clearFilters p v2).
  assert (debounce v3 = Some (now v + DEBOUNCE_DELAY, keyword)) as Hd3
    by exact Hd1.
  assert (now v3 = now v + gap) as Hn3 by exact Hn1.
  assert (calls v3 = calls v ++ [FetchRecords (accountId p) (domainId p)
                                   (Some empty_str) (Some empty_str)]) as Hc3.
  { change (calls v2 ++ [FetchRecords (accountId p) (domainId p)
                           (Some empty_str) (Some empty_str)]
            = calls v ++ [FetchRecords (accountId p) (domainId p)
                            (Some empty_str) (Some empty_str)]).
    by rewrite Hc1. }
  destruct (elapse_to_deadline p d _ _ v3 Hd3) as (_ & Hc & Ht & Hs); [lia|].
  cbv zeta in *. rewrite Hc, Ht, Hs, Hc3.
  split; [done|]. split; [done|]. by rewrite <- app_assoc.
Qed.

End ShownFilters.

(** "www" is typed, the filters are cleared after 100 ms, 200 ms later the
    search for "www" fires. *)
Lemma clearFilters_then_stale_search_witness :
  let p := DnsRecordTable.mkProps "acc" "example.com" in
  (100 < DnsRecordTable.DEBOUNCE_DELAY ∧ DnsRecordTable.DEBOUNCE_DELAY ≤ 100 + 200)
  ∧ DnsRecordTable.calls
      (DnsRecordTable.elapse p 200
         (DnsRecordTable.clearFilters p
            (DnsRecordTable.elapse p 100
               (DnsRecordTable.handleSearchChange "www" DnsRecordTable.initView))))
    = [DnsRecordTable.FetchRecords "acc" "example.com" (Some empty_str) (Some empty_str);
       DnsRecordTable.FetchRecords "acc" "example.com" (Some "www") (Some empty_str)].
Proof.
  intros p.
  assert (100 < DnsRecordTable.DEBOUNCE_DELAY) as H1
    by (unfold DnsRecordTable.DEBOUNCE_DELAY; lia).
  assert (DnsRecordTable.DEBOUNCE_DELAY ≤ 100 + 200) as H2 by reflexivity.
  split; [by split|].
  exact (proj2 (proj2 (clearFilters_then_stale_search p DnsRecordTable.initView
                         "www" 100 200 H1 H2))).
Defined.

(* ===================================================================== *)
(** * Loading the accounts                                                 *)
(* ===================================================================== *)

Section LoadAccounts.
Import AccountStore AccountRuns.

Lemma step_settle_list w rid r :
  pending w !! rid = Some KFetchAccounts →
  step w (SettleList rid r) = fetchAccounts_resume r (settle rid w).
Proof. intros H. simpl. by rewrite H. Qed.

(** The continuation of [fetchAccounts] on an answer that delivers
    accounts. *)
Lemma fetchAccounts_resume_loaded r d w :
  loaded r = Some d →
  let w' := fetchAccounts_resume r w in
  store w' = with_isLoading false (with_accounts d (store w))
  ∧ timers w' = timers w ∧ domainCaches w' = domainCaches w
  ∧ pending w' = pending w
  ∧ trace w' = trace w ++
      [StoreSet ["accounts"]]
      ++ (if 0 <? length (failedAccounts d)
          then [ToastError (I18nCount "account.loadFailedCount"
                              (length (failedAccounts d)))]
          else [])
      ++ [StoreSet ["isLoading"]; Returned FetchAccounts None].
Proof.
  intros Hr. destruct r as [response|err]; [|done]. simpl in Hr.
  unfold fetchAccounts_resume. destruct (success response); [|done].
  rewrite Hr. unfold failedAccounts.
  destruct (0 <? length (filter (fun a => acc_status a = "error") d));
    simpl; repeat split; by rewrite <- !app_assoc.
Qed.

(** The continuation of [fetchAccounts] on any other answer. *)
Lemma fetchAccounts_resume_failed r w :
  loaded r = None →
  let w' := fetchAccounts_resume r w in
  ∃ msg,
    store w' = with_isLoading false (with_error (Some msg) (store w))
    ∧ timers w' = timers w ∧ domainCaches w' = domainCaches w
    ∧ pending w' = pending w
    ∧ trace w' = trace w ++
        [StoreSet ["error"]; ToastError msg; StoreSet ["isLoading"];
         Returned FetchAccounts None].
Proof.
  intros Hr. destruct r as [response|err]; simpl in Hr.
  - exists (GetErrorMessage (api_error response)).
    unfold fetchAccounts_resume.
    destruct (success response), (data response); try done;
      simpl; repeat split; by rewrite <- !app_assoc.
  - exists (ExtractErrorMessage err). simpl. repeat split. by rewrite <- !app_assoc.
Qed.

(** X8. [fetchAccounts] keeps the last good list. Whatever the answer, the
    action ends with [isLoading] false. An answer that delivers accounts
    replaces the list and leaves [error] null. Any other answer (a failure
    response, a success without data, a thrown error) leaves the list as it
    was, sets [error] and shows one error toast. The selected account, the
    timers and the caches are never touched. *)
Theorem fetchAccounts_outcome w r :
  let w1 := step w CallFetchAccounts in
  let w2 := step w1 (SettleList (nextReq w) r) in
  (isLoading (store w1) = true ∧ error (store w1) = None)
  ∧ isLoading (store w2) = false
  ∧ last (trace w2) = Some (Returned FetchAccounts None)
  ∧ match loaded r with
    | Some d => accounts (store w2) = d ∧ error (store w2) = None
                ∧ diagnostics w2 ≤ S (diagnostics w)
    | None => accounts (store w2) = accounts (store w)
              ∧ is_Some (error (store w2))
              ∧ diagnostics w2 = S (diagnostics w)
    end
  ∧ selectedAccountId (store w2) = selectedAccountId (store w)
  ∧ timers w2 = timers w
  ∧ domainCaches w2 = domainCaches w.
Proof.
  intros w1 w2.
  assert (pending w1 !! nextReq w = Some KFetchAccounts) as Hp
    by apply lookup_insert_eq.
  assert (trace w1 = trace w ++ [Called FetchAccounts; StoreSet ["isLoading"; "error"];
                                 Invoke (nextReq w) ListAccounts]) as Ht1
    by (simpl; by rewrite <- !app_assoc).
  split; [done|]. subst w2. rewrite (step_settle_list _ _ _ Hp).
  destruct (loaded r) as [d|] eqn:Hr.
  - destruct (fetchAccounts_resume_loaded r d (settle (nextReq w) w1) Hr)
      as (Hs & Htm & Hc & _ & Ht).
    unfold diagnostics.
    rewrite Hs, Htm, Hc, Ht, !last_app. simpl.
    repeat split; try done.
    rewrite !List.filter_app, !length_app. simpl.
    rewrite !List.filter_app, !length_app.
    destruct (0 <? length (failedAccounts d)); simpl; lia.
  - destruct (fetchAccounts_resume_failed r (settle (nextReq w) w1) Hr)
      as (msg & Hs & Htm & Hc & _ & Ht).
    unfold diagnostics.
    rewrite Hs, Htm, Hc, Ht. rewrite last_app. simpl.
    repeat split; try done.
    rewrite !List.filter_app, !length_app. simpl. lia.
Qed.

(** X9. After a successful load, the toast "account.loadFailedCount" is
    shown exactly when some loaded account has the status "error", and it
    carries the number of those accounts; nothing else is shown. *)
Theorem failed_accounts_toast w rid r d :
  pending w !! rid = Some KFetchAccounts →
  loaded r = Some d →
  let w' := step w (SettleList rid r) in
  let n := length (failedAccounts d) in
  List.filter is_diagnostic (since w w')
  = (if 0 <? n then [ToastError (I18nCount "account.loadFailedCount" n)] else [])
  ∧ (0 < n ↔ ∃ a, a ∈ d ∧ acc_status a = "error").
Proof.
  intros Hp Hr w' n. subst w'. rewrite (step_settle_list _ _ _ Hp).
  destruct (fetchAccounts_resume_loaded r d (settle rid w) Hr) as (_ & _ & _ & _ & Ht).
  rewrite (since_app w _ _ Ht). split.
  - rewrite !List.filter_app. simpl. fold n. by destruct (0 <? n).
  - subst n. unfold failedAccounts. split.
    + intros Hpos.
      destruct (filter (fun a => acc_status a = "error") d) as [|a l] eqn:Hf;
        [simpl in Hpos; lia|].
      assert (a ∈ filter (fun a => acc_status a = "error") d) as Hin
        by (rewrite Hf; by left).
      apply list_elem_of_filter in Hin as [? ?]. by exists a.
    + intros (a & Ha & Hst).
      assert (a ∈ filter (fun a => acc_status a = "error") d) as Hin
        by (by apply list_elem_of_filter).
      destruct (filter (fun a => acc_status a = "error") d);
        [by apply elem_of_nil in Hin|simpl; lia].
Qed.

(** X10. [fetchAccounts] has no sequencing of its answers: of two loads in
    flight, the answer that arrives last decides the list, also when it
    belongs to the load that was started first. [isLoading] is false as soon
    as the first answer has arrived, while the other load is still
    pending. *)
Theorem fetchAccounts_last_answer_wins w d1 d2 :
  let ok d := Resolved (mkResponse true (Some d) None) in
  let first := nextReq w in
  let second := S (nextReq w) in
  let w3 := run w [CallFetchAccounts; CallFetchAccounts; SettleList second (ok d2)] in
  let w4 := step w3 (SettleList first (ok d1)) in
  (accounts (store w3) = d2 ∧ isLoading (store w3) = false
   ∧ pending w3 !! first = Some KFetchAccounts)
  ∧ accounts (store w4) = d1.
Proof.
  intros ok first second w3 w4. subst w4 w3 ok first second.
  unfold run. cbn [foldl].
  set (w1 := step w CallFetchAccounts).
  set (w2 := step w1 CallFetchAccounts).
  assert (nextReq w1 = S (nextReq w)) as Hn1 by done.
  assert (pending w2 !! S (nextReq w) = Some KFetchAccounts) as Hp2.
  { subst w2. simpl. rewrite <- Hn1 at 1. apply lookup_insert_eq. }
  assert (pending w2 !! nextReq w = Some KFetchAccounts) as Hp1.
  { subst w2. simpl. rewrite lookup_insert_ne by lia. apply lookup_insert_eq. }
  rewrite (step_settle_list _ _ _ Hp2).
  destruct (fetchAccounts_resume_loaded
              (Resolved (mkResponse true (Some d2) None)) d2
              (settle (S (nextReq w)) w2) eq_refl) as (Hs3 & _ & _ & Hpe3 & _).
  set (w3 := fetchAccounts_resume _ (settle (S (nextReq w)) w2)) in *.
  assert (pending w3 !! nextReq w = Some KFetchAccounts) as Hp3.
  { rewrite Hpe3. simpl. rewrite lookup_delete_ne by lia.
    rewrite lookup_insert_ne by lia. apply lookup_insert_eq. }
  rewrite (step_settle_list _ _ _ Hp3).
  destruct (fetchAccounts_resume_loaded
              (Resolved (mkResponse true (Some d1) None)) d1
              (settle (nextReq w) w3) eq_refl) as (Hs4 & _).
  rewrite Hs3, Hs4. done.
Qed.

End LoadAccounts.

Lemma failed_accounts_toast_witness :
  let ok := AccountStore.mkAccount "A" "first" "active" in
  let bad := AccountStore.mkAccount "B" "second" "error" in
  let w := AccountStore.step AccountStore.initWorld AccountStore.CallFetchAccounts in
  let r := AccountStore.Resolved (AccountStore.mkResponse true (Some [ok; bad]) None) in
  (AccountStore.pending w !! 0 = Some AccountStore.KFetchAccounts
   ∧ AccountRuns.loaded r = Some [ok; bad])
  ∧ List.filter AccountStore.is_diagnostic
      (AccountStore.since w (AccountStore.step w (AccountStore.SettleList 0 r)))
    = [AccountStore.ToastError (AccountStore.I18nCount "account.loadFailedCount" 1)].
Proof.
  intros ok bad w r.
  assert (AccountStore.pending w !! 0 = Some AccountStore.KFetchAccounts) as Hp
    by reflexivity.
  assert (AccountRuns.loaded r = Some [ok; bad]) as Hr by reflexivity.
  split; [by split|].
  exact (proj1 (failed_accounts_toast w 0 r [ok; bad] Hp Hr)).
Defined.

(* ===================================================================== *)
(** * A stopped poll stays stopped                                         *)
(* ===================================================================== *)

Section StoppedPoll.
Import AccountStore AccountRuns.

Lemma timers_keep (X : gset nat) n : X ⊆ X ∪ {[n]}.
Proof. apply union_subseteq_l. Qed.

Lemma timers_clear (X : gset nat) poll : X ∖ {[poll]} ⊆ X.
Proof. intros x Hx. by apply elem_of_difference in Hx as [Hx _]. Qed.

Lemma timers_clear_keep (X : gset nat) poll n : X ∖ {[poll]} ⊆ X ∪ {[n]}.
Proof. etrans; [apply timers_clear|apply timers_keep]. Qed.

Lemma timers_set (X : gset nat) n : {[n]} ∪ X ⊆ X ∪ {[n]}.
Proof.
  intros x Hx. apply elem_of_union in Hx as [Hx|Hx]; apply elem_of_union; auto.
Qed.

Lemma timers_cleared (X : gset nat) poll : poll ∉ X ∖ {[poll]}.
Proof.
  intros Hx. apply elem_of_difference in Hx as [_ Hx].
  apply Hx. by apply elem_of_singleton.
Qed.

(** What a turn of the event loop does to the timers: it adds at most the
    next handle, and never lowers the next handle. *)
Lemma step_timers w ev :
  nextTimer w ≤ nextTimer (step w ev)
  ∧ timers (step w ev) ⊆ timers w ∪ {[nextTimer w]}.
Proof.
  assert (∀ w', nextTimer w ≤ nextTimer w' →
                (timers w' = timers w ∨ (∃ poll, timers w' = timers w ∖ {[poll]})
                 ∨ timers w' = {[nextTimer w]} ∪ timers w) →
                nextTimer w ≤ nextTimer w'
                ∧ timers w' ⊆ timers w ∪ {[nextTimer w]}) as Hcase.
  { intros w' Hn [->|[[poll ->]| ->]]; split; try done.
    - apply timers_keep.
    - apply timers_clear_keep.
    - apply timers_set. }
  destruct ev as [| | |t|rid r|rid r|rid r]; simpl.
  - apply Hcase; simpl; [lia|by left].
  - apply Hcase; simpl; [lia|by left].
  - apply Hcase; simpl; [lia|by left].
  - case_bool_decide; apply Hcase; simpl; [lia|by left|lia|by left].
  - destruct (pending w !! rid) as [[]|]; try (apply Hcase; simpl; [lia|by left]).
    unfold fetchAccounts_resume.
    destruct r as [response|err]; [destruct (success response), (data response)|];
      try (apply Hcase; simpl; [lia|by left]).
    destruct (0 <? _); apply Hcase; simpl; try lia; by left.
  - destruct (pending w !! rid) as [[]|]; try (apply Hcase; simpl; [lia|by left]).
    unfold deleteAccount_resume.
    destruct r as [response|err]; [destruct (success response)|];
      apply Hcase; simpl; try lia; by left.
  - destruct (pending w !! rid) as [[| | |poll]|];
      try (apply Hcase; simpl; [lia|by left]).
    + destruct r as [[]|]; apply Hcase; simpl; try lia;
        [by left|by right; right|by left].
    + destruct r as [[]|]; apply Hcase; simpl; try lia;
        [right; left; by exists poll|by left|right; left; by exists poll].
Qed.

Lemma step_timers_ok w ev : timers_ok w → timers_ok (step w ev).
Proof.
  intros [Ht Hk].
  assert (∀ w', nextTimer w ≤ nextTimer w' → timers w' ⊆ timers w →
                (∀ rid poll, pending w' !! rid = Some (KPoll poll) →
                   poll < nextTimer w) →
                timers_ok w') as Hkeep.
  { intros w' Hn Hsub Hp. split.
    - intros t Hin. apply Hsub, Ht in Hin. lia.
    - intros rid poll Hin. apply Hp in Hin. lia. }
  assert (∀ rid (k : Cont) rid' poll,
            (∀ poll', k ≠ KPoll poll') →
            <[rid := k]> (pending w) !! rid' = Some (KPoll poll) →
            poll < nextTimer w) as Hins.
  { intros rid k rid' poll Hne Hl. destruct (decide (rid = rid')) as [->|Hd].
    - rewrite lookup_insert_eq in Hl. injection Hl as ->. by destruct (Hne poll).
    - rewrite lookup_insert_ne in Hl by done. by eapply Hk. }
  assert (∀ rid rid' poll,
            delete rid (pending w) !! rid' = Some (KPoll poll) →
            poll < nextTimer w) as Hdel.
  { intros rid rid' poll Hl. apply lookup_delete_Some in Hl as [_ Hl]. by eapply Hk. }
  assert (∀ rid (k : Cont) rid0 rid' poll,
            (∀ poll', k ≠ KPoll poll') →
            <[rid := k]> (delete rid0 (pending w)) !! rid' = Some (KPoll poll) →
            poll < nextTimer w) as Hinsdel.
  { intros rid k rid0 rid' poll Hne Hl. destruct (decide (rid = rid')) as [->|Hd].
    - rewrite lookup_insert_eq in Hl. injection Hl as ->. by destruct (Hne poll).
    - rewrite lookup_insert_ne in Hl by done. by eapply Hdel. }
  destruct ev as [| | |t|rid r|rid r|rid r]; simpl.
  - apply Hkeep; simpl; [lia|done|]. intros ??. by apply Hins.
  - apply Hkeep; simpl; [lia|done|]. intros ??. by apply Hins.
  - apply Hkeep; simpl; [lia|done|]. intros ??. by apply Hins.
  - case_bool_decide as Hin; [|done].
    apply Hkeep; simpl; [lia|done|].
    intros rid poll Hl. destruct (decide (nextReq w = rid)) as [He|Hd].
    + rewrite <- He, lookup_insert_eq in Hl. injection Hl as <-. by apply Ht.
    + rewrite lookup_insert_ne in Hl by done. by eapply Hk.
  - destruct (pending w !! rid) as [[]|] eqn:Hp; try done.
    unfold fetchAccounts_resume.
    destruct r as [response|err]; [destruct (success response), (data response)|];
      try (apply Hkeep; simpl; [lia|done|]; intros ??; by apply Hdel).
    destruct (0 <? _); apply Hkeep; simpl; try lia; try done; intros ??; by apply Hdel.
  - destruct (pending w !! rid) as [[]|] eqn:Hp; try done.
    unfold deleteAccount_resume.
    destruct r as [response|err]; [destruct (success response)|];
      apply Hkeep; simpl; try lia; try done; intros ??; by apply Hdel.
  - destruct (pending w !! rid) as [[| | |poll]|] eqn:Hp; try done.
    + destruct r as [[]|]; simpl.
      * apply Hkeep; simpl; [lia|done|]. intros ??. by apply Hinsdel.
      * split; simpl.
        -- intros t Hin. apply elem_of_union in Hin as [Hin|Hin].
           ++ apply elem_of_singleton in Hin. lia.
           ++ apply Ht in Hin. lia.
        -- intros rid' poll Hl. apply Hdel in Hl. lia.
      * apply Hkeep; simpl; [lia|done|]. intros ??. by apply Hdel.
    + destruct r as [[]|]; simpl.
      * apply Hkeep; simpl; [lia|apply timers_clear|]. intros ??. by apply Hinsdel.
      * apply Hkeep; simpl; [lia|done|]. intros ??. by apply Hdel.
      * apply Hkeep; simpl; [lia|apply timers_clear|]. intros ??. by apply Hdel.
Qed.

Lemma run_timers_ok evs w : timers_ok w → timers_ok (run w evs).
Proof.
  revert w. induction evs as [|ev evs IH]; intros w Hw; simpl; [done|].
  apply IH. by apply step_timers_ok.
Qed.

Lemma timers_ok_init : timers_ok initWorld.
Proof.
  split.
  - intros t Hin. by apply not_elem_of_empty in Hin.
  - intros rid poll Hl. simpl in Hl. by rewrite lookup_empty in Hl.
Qed.

(** A handle that is older than the next one and is not set is never set
    again. *)
Lemma cleared_stays evs w poll :
  poll < nextTimer w → poll ∉ timers w →
  poll < nextTimer (run w evs) ∧ poll ∉ timers (run w evs).
Proof.
  revert w. induction evs as [|ev evs IH]; intros w Hlt Hnot; simpl; [done|].
  destruct (step_timers w ev) as [Hn Hsub].
  apply IH; [lia|]. intros Hin. apply Hsub in Hin.
  apply elem_of_union in Hin as [Hin|Hin]; [done|].
  apply elem_of_singleton in Hin. lia.
Qed.

(** X11. Polling stops for good: once a poll of a timer has reported
    completion or has failed, that timer is cleared and never ticks again,
    whatever happens afterwards (further starts of the poller included). *)
Theorem stopped_poll_stays_stopped before rid poll r after :
  let w := run initWorld before in
  pending w !! rid = Some (KPoll poll) →
  ends_polling r = true →
  let w' := run (step w (SettleBool rid r)) after in
  (poll ∉ timers w') ∧ step w' (Tick poll) = w'.
Proof.
  intros w Hp Hr w'.
  assert (timers_ok w) as [_ Hk] by (apply run_timers_ok; apply timers_ok_init).
  pose proof (Hk rid poll Hp) as Hlt.
  assert (poll ∉ timers w') as Hnot.
  { subst w'. apply cleared_stays.
    - destruct (step_timers w (SettleBool rid r)). lia.
    - rewrite (step_settle_poll _ _ _ _ Hp).
      destruct r as [[]|]; [|done|]; simpl; apply timers_cleared. }
  split; [done|]. simpl. by rewrite bool_decide_eq_false_2.
Qed.

(** X12. [isDeleting] is a flag, not a count: with two deletions in flight,
    the first answer to arrive resets it although the other deletion is
    still pending. *)
Theorem isDeleting_reset_by_first_answer w id1 id2 r :
  let w' :=
    run w [CallDeleteAccount id1; CallDeleteAccount id2;
           SettleVoid (nextReq w) r] in
  isDeleting (store w') = false
  ∧ pending w' !! S (nextReq w) = Some (KDeleteAccount id2).
Proof.
  intros w'. subst w'. unfold run. cbn [foldl].
  set (w2 := step (step w (CallDeleteAccount id1)) (CallDeleteAccount id2)).
  assert (pending w2 !! nextReq w = Some (KDeleteAccount id1)) as Hp1.
  { subst w2. simpl. rewrite lookup_insert_ne by lia. apply lookup_insert_eq. }
  rewrite (step_settle_delete _ _ _ _ Hp1).
  assert (pending (settle (nextReq w) w2) !! S (nextReq w) = Some (KDeleteAccount id2)) as Hp2.
  { subst w2. simpl. rewrite lookup_delete_ne by lia. apply lookup_insert_eq. }
  destruct (confirmed r) eqn:Hr.
  - destruct r as [response|err]; [|done]. simpl in Hr.
    destruct (deleteAccount_resume_success id1 response (settle (nextReq w) w2) Hr)
      as (Hs & _ & _ & Hpe & _).
    by rewrite Hs, Hpe.
  - unfold deleteAccount_resume.
    destruct r as [response|err]; [simpl in Hr; rewrite Hr|]; by simpl.
Qed.

End StoppedPoll.

(** The poller is started, the first poll is answered with an error, and
    the poller is started again: the old timer stays cleared. *)
Lemma stopped_poll_stays_stopped_witness :
  let before :=
    [AccountStore.CallCheckRestoreStatus;
     AccountStore.SettleBool 0 (AccountStore.Resolved false);
     AccountStore.Tick 0] in
  let after :=
    [AccountStore.CallCheckRestoreStatus;
     AccountStore.SettleBool 2 (AccountStore.Resolved false)] in
  let r := AccountStore.Rejected "transport down" in
  let w := AccountStore.run AccountStore.initWorld before in
  (AccountStore.pending w !! 1 = Some (AccountStore.KPoll 0)
   ∧ AccountRuns.ends_polling r = true)
  ∧ 0 ∉ AccountStore.timers
          (AccountStore.run (AccountStore.step w (AccountStore.SettleBool 1 r)) after).
Proof.
  intros before after r w.
  assert (AccountStore.pending w !! 1 = Some (AccountStore.KPoll 0)) as Hp
    by reflexivity.
  assert (AccountRuns.ends_polling r = true) as Hr by reflexivity.
  split; [by split|].
  exact (proj1 (stopped_poll_stays_stopped before 1 0 r after Hp Hr)).
Defined.

(* ===================================================================== *)
(** * Creating an account, loading the providers                           *)
(* ===================================================================== *)

Section CreateAccount.
Import AccountActions.

(** X13. A created account is appended: on success the accounts list is
    the former list followed by the new account (nothing is removed,
    reordered or deduplicated), the account is returned and one success
    toast names it; [isLoading] is false again, no error is set. *)
Theorem createAccount_appends s r account :
  created r = Some account →
  let o := createAccount_resume r (createAccount s) in
  accounts (state o) = accounts s ++ [account]
  ∧ result o = Some account
  ∧ effects o = [ToastSuccess "account.createSuccess" (AccountStore.acc_name account)]
  ∧ isLoading (state o) = false
  ∧ error (state o) = None
  ∧ fieldErrors (state o) = ∅
  ∧ selectedAccountId (state o) = selectedAccountId s
  ∧ providers (state o) = providers s.
Proof.
  intros Hr. destruct r as [response|err]; [|done]. simpl in Hr.
  unfold createAccount_resume. destruct (success response); [|done].
  rewrite Hr. by simpl.
Qed.

Lemma blamed_match (e : option ApiError) :
  match e with
  | Some (mkApiError c d) =>
      (if String.eqb c "CredentialValidation" then d else None)
  | None => None
  end
  = match e with
    | Some (mkApiError "CredentialValidation" (Some d)) => Some d
    | _ => None
    end.
Proof.
  destruct e as [[c d]|]; [|done].
  destruct (String.eqb_spec c "CredentialValidation") as [->|Hne]; [by destruct d|].
  repeat (match goal with
          | |- context [match ?x with _ => _ end] => is_var x; destruct x; try done
          end).
Qed.

(** X14. A failed [createAccount] never changes the accounts list, returns
    null and resets [isLoading]. A credential validation error with details
    marks exactly the blamed form field and shows no toast and no general
    error; every other failure sets the general error, shows one error
    toast and marks no field. *)
Theorem createAccount_failure s r :
  created r = None →
  let o := createAccount_resume r (createAccount s) in
  accounts (state o) = accounts s
  ∧ result o = None
  ∧ isLoading (state o) = false
  ∧ match blamed r with
    | Some d =>
        fieldErrors (state o) = {[ field d := GetFieldErrorMessage d ]}
        ∧ error (state o) = None
        ∧ effects o = []
    | None =>
        fieldErrors (state o) = ∅
        ∧ (∃ msg, error (state o) = Some msg ∧ effects o = [ToastError msg])
    end.
Proof.
  intros Hr. destruct r as [response|err]; simpl in Hr.
  - unfold createAccount_resume, blamed.
    assert (match success response, data response with
            | true, Some _ => False
            | _, _ => True
            end) as Hno.
    { destruct (success response); [by rewrite Hr|done]. }
    pose proof (blamed_match (error_of response)) as Hb.
    destruct (error_of response) as [[c d]|] eqn:He; simpl in Hb |- *.
    + rewrite Hb. clear Hb.
      destruct (success response), (data response); try done;
        repeat (match goal with
                | |- context [match ?x with _ => _ end] => is_var x; destruct x
                end); simpl; repeat split; eauto.
    + destruct (success response), (data response); try done;
        simpl; repeat split; eauto.
  - simpl. repeat split; eauto.
Qed.


End CreateAccount.

Lemma createAccount_appends_witness :
  let a := AccountStore.mkAccount "A" "first" "active" in
  let b := AccountStore.mkAccount "B" "second" "active" in
  let s := AccountActions.with_accounts [a] AccountActions.initState in
  let r := AccountStore.Resolved (AccountActions.mkResponse true (Some b) None) in
  AccountActions.created r = Some b
  ∧ AccountActions.accounts
      (AccountActions.state
         (AccountActions.createAccount_resume r (AccountActions.createAccount s)))
    = [a; b].
Proof.
  intros a b s r.
  assert (AccountActions.created r = Some b) as Hr by reflexivity.
  split; [exact Hr|].
  exact (proj1 (createAccount_appends s r b Hr)).
Defined.

Lemma createAccount_failure_witness :
  let d := AccountActions.mkDetails "apiToken" in
  let e := AccountActions.mkApiError "CredentialValidation" (Some d) in
  let r := AccountStore.Resolved (AccountActions.mkResponse false None (Some e)) in
  AccountActions.created r = None
  ∧ AccountActions.result
      (AccountActions.createAccount_resume r
         (AccountActions.createAccount AccountActions.initState))
    = None.
Proof.
  intros d e r.
  assert (AccountActions.created r = None) as Hr by reflexivity.
  split; [exact Hr|].
  exact (proj1 (proj2 (createAccount_failure AccountActions.initState r Hr))).
Defined.

(* ===================================================================== *)
(** * Navigation, platform, file names, selection, build                   *)
(* ===================================================================== *)

Section NavigationFacts.
Import Navigation.

(** X16. Round trip of the menu: the path the menu navigates to for an item
    is recognised as that item. *)
Theorem nav_round_trip item : getNavItemFromPath (navPaths item) = item.
Proof. by destruct item. Qed.

(** X17. Paths are recognised by prefix: every path that extends
    "/domains", "/toolbox", "/settings" or "/accounts" (sub-pages, but also
    a longer first segment) belongs to that item, and every other path, the
    root included, belongs to the main item. *)
Theorem nav_by_prefix :
  (∀ rest, getNavItemFromPath (String.append "/domains" rest) = Domains)
  ∧ (∀ rest, getNavItemFromPath (String.append "/toolbox" rest) = Toolbox)
  ∧ (∀ rest, getNavItemFromPath (String.append "/settings" rest) = Settings)
  ∧ (∀ rest, getNavItemFromPath (String.append "/accounts" rest) = Accounts)
  ∧ (∀ pathname,
       getNavItemFromPath pathname = Main
       ↔ startsWith pathname "/domains" = false
         ∧ startsWith pathname "/toolbox" = false
         ∧ startsWith pathname "/settings" = false
         ∧ startsWith pathname "/accounts" = false).
Proof.
  split; [intros rest; by destruct rest|]. split; [intros rest; by destruct rest|].
  split; [intros rest; by destruct rest|]. split; [intros rest; by destruct rest|].
  intros pathname. unfold getNavItemFromPath. split.
  - destruct (String.eqb_spec pathname "/") as [->|_]; [done|].
    destruct (startsWith pathname "/domains"); [done|].
    destruct (startsWith pathname "/toolbox"); [done|].
    destruct (startsWith pathname "/settings"); [done|].
    by destruct (startsWith pathname "/accounts").
  - intros (H1 & H2 & H3 & H4).
    rewrite H1, H2, H3, H4. by destruct (String.eqb pathname "/").
Qed.

End NavigationFacts.

Section PlatformFacts.
Import Env.
Variable platform : nat → string.

(** X18. Exactly one of [isAndroid], [isIOS] and [isDesktop] holds, in
    every state of the module. *)
Theorem platform_predicates_partition s :
  (isAndroid s = true ∧ isIOS s = false ∧ isDesktop s = false)
  ∨ (isAndroid s = false ∧ isIOS s = true ∧ isDesktop s = false)
  ∨ (isAndroid s = false ∧ isIOS s = false ∧ isDesktop s = true).
Proof.
  unfold isAndroid, isIOS, isDesktop.
  destruct (decide (cachedPlatform s = Some "android")) as [Ha|Ha];
    destruct (decide (cachedPlatform s = Some "ios")) as [Hi|Hi].
  - rewrite Ha in Hi. done.
  - left. rewrite (bool_decide_eq_true_2 _ Ha), (bool_decide_eq_false_2 _ Hi).
    repeat split. rewrite bool_decide_eq_false_2; [done|]. by intros Hn.
  - right; left.
    rewrite (bool_decide_eq_false_2 _ Ha), (bool_decide_eq_true_2 _ Hi).
    repeat split. rewrite (bool_decide_eq_true_2 _ Ha).
    rewrite bool_decide_eq_false_2; [done|]. by intros Hn.
  - right; right.
    rewrite (bool_decide_eq_false_2 _ Ha), (bool_decide_eq_false_2 _ Hi).
    by rewrite !bool_decide_eq_true_2.
Qed.

(** X19. The predicates read the cache and never fill it: before the first
    [initEnv] or [getPlatform] the application counts as desktop whatever
    the platform is. After [initEnv], and after a first [getPlatform], they
    tell the platform that was read. *)
Theorem platform_known_after_read :
  (isDesktop init = true ∧ isAndroid init = false ∧ isIOS init = false)
  ∧ (∀ s, isAndroid (initEnv platform s) = String.eqb (platform (reads s)) "android"
          ∧ isIOS (initEnv platform s) = String.eqb (platform (reads s)) "ios")
  ∧ isAndroid (getPlatform platform init).1 = String.eqb (platform 0) "android"
  ∧ isIOS (getPlatform platform init).1 = String.eqb (platform 0) "ios".
Proof.
  assert (∀ a b : string, bool_decide (Some a = Some b) = String.eqb a b) as Heq.
  { intros a b. destruct (String.eqb_spec a b) as [->|Hne].
    - by apply bool_decide_eq_true_2.
    - apply bool_decide_eq_false_2. by intros [= ?]. }
  repeat split; intros; unfold isAndroid, isIOS; simpl; apply Heq.
Qed.

(** X20. [getPlatform] reads the platform at most once: any number of
    calls in a row return the same value, the cached one if there is one
    and else the value read by the first call, and the platform
    implementation is called once at most. *)
Theorem getPlatform_cached n s :
  let '(s', values) := getPlatform_times platform (S n) s in
  let v := default (platform (reads s)) (cachedPlatform s) in
  values = replicate (S n) v
  ∧ cachedPlatform s' = Some v
  ∧ reads s' = match cachedPlatform s with
               | Some _ => reads s
               | None => S (reads s)
               end.
Proof.
  assert (∀ m s v, cachedPlatform s = Some v →
            getPlatform_times platform m s = (s, replicate m v)) as Hcached.
  { induction m as [|m IH]; intros s0 v Hc; simpl; [done|].
    unfold getPlatform. rewrite Hc. by rewrite (IH s0 v Hc). }
  simpl. unfold getPlatform.
  destruct (cachedPlatform s) as [v|] eqn:Hc.
  - by rewrite (Hcached n s v Hc).
  - by rewrite (Hcached n (mkState (Some (platform (reads s))) (S (reads s)))
                  (platform (reads s)) eq_refl).
Qed.

End PlatformFacts.

Section FileNames.
Import FileService.

(** The segments of a path: the last one has no slash and ends the path,
    right after a slash unless the path has a single segment. *)
Lemma split_last s :
  ∃ seg0 rest dir seg,
    split "/" s = seg0 :: rest
    ∧ last (seg0 :: rest) = Some seg
    ∧ contains "/" seg = false
    ∧ s = String.append dir seg
    ∧ (rest = [] → dir = EmptyString)
    ∧ (rest ≠ [] → ∃ d, dir = String.append d "/")
    ∧ (contains "/" s = false → rest = []).
Proof.
  induction s as [|c s IH].
  - exists EmptyString, [], EmptyString, EmptyString. by split_and!.
  - destruct IH as (seg0 & rest & dir & seg & Hs & Hl & Hc & Happ & Hone & Hmany & Hno).
    simpl. destruct (Ascii.eqb_spec c "/") as [->|Hne].
    + exists EmptyString, (seg0 :: rest), (String "/" dir), seg.
      rewrite Hs. split_and!; try done.
      * simpl. by rewrite Happ.
      * intros _. destruct rest as [|x rest].
        -- exists EmptyString. by rewrite Hone.
        -- destruct Hmany as [d ->]; [done|]. by exists (String "/" d).
    + rewrite Hs. destruct rest as [|x rest].
      * exists (String c seg0), [], EmptyString, (String c seg0).
        injection Hl as <-. rewrite (Hone eq_refl) in Happ. simpl in Happ.
        split_and!; try done.
        -- simpl. rewrite Hc. by destruct (Ascii.eqb_spec c "/").
        -- simpl. by rewrite Happ.
      * exists (String c seg0), (x :: rest), (String c dir), seg.
        split_and!; try done.
        -- simpl. by rewrite Happ.
        -- intros _. destruct Hmany as [d ->]; [done|]. by exists (String c d).
Qed.

(** X21. The name shown for a file opened through the native dialog is
    never empty and never contains a slash. It is the part of the path after
    the last slash; a path without any slash (a Windows path with
    backslashes, say) is kept whole; a path that ends with a slash gives
    "file". *)
Theorem filenameOf_last_segment filePath :
  let name := filenameOf filePath in
  name ≠ EmptyString
  ∧ contains "/" name = false
  ∧ (contains "/" filePath = false → filePath ≠ EmptyString → name = filePath)
  ∧ ((∃ dir, filePath = String.append dir name
             ∧ (dir = EmptyString ∨ ∃ d, dir = String.append d "/"))
     ∨ (name = "file"
        ∧ (filePath = EmptyString ∨ ∃ d, filePath = String.append d "/"))).
Proof.
  destruct (split_last filePath)
    as (seg0 & rest & dir & seg & Hs & Hl & Hc & Happ & Hone & Hmany & Hno).
  unfold filenameOf, pop. rewrite Hs, Hl. cbv zeta.
  assert (String.append dir EmptyString = dir) as Hnil.
  { clear. induction dir as [|c dir IH]; [done|].
    change (String c (String.append dir EmptyString) = String c dir).
    by rewrite IH. }
  destruct (String.eqb_spec seg EmptyString) as [->|Hne].
  - split; [done|]. split; [done|]. rewrite Hnil in Happ. subst dir. split.
    + intros Hn Hne. specialize (Hno Hn). by specialize (Hone Hno).
    + right. split; [done|]. destruct rest as [|x rest]; [left; by apply Hone|].
      right. by apply Hmany.
  - split; [done|]. split; [done|]. split.
    + intros Hn _. specialize (Hno Hn). specialize (Hone Hno).
      by rewrite Happ, Hone.
    + left. exists dir. split; [done|]. destruct rest as [|x rest].
      * left. by apply Hone.
      * right. by apply Hmany.
Qed.

End FileNames.

Example filenameOf_examples :
  FileService.filenameOf "/home/user/accounts.json" = "accounts.json"
  ∧ FileService.filenameOf "accounts.json" = "accounts.json"
  ∧ FileService.filenameOf "/home/user/" = "file"
  ∧ FileService.filenameOf "C:\Users\me\accounts.json" = "C:\Users\me\accounts.json".
Proof. repeat split. Qed.

Section BatchBar.
Import AccountBatchActionBar.

(** X22. The bar decides "all selected" by counting. When the account ids
    are distinct and every selected id belongs to an account, the count
    tells the truth: [isAllSelected] holds exactly when there is at least
    one account and every account is selected. *)
Theorem isAllSelected_by_count (selected : gset string)
    (accounts : list AccountStore.Account) :
  NoDup (map AccountStore.acc_id accounts) →
  (∀ i, i ∈ selected → i ∈ map AccountStore.acc_id accounts) →
  isAllSelected selected accounts = true
  ↔ accounts ≠ [] ∧ ∀ a, a ∈ accounts → AccountStore.acc_id a ∈ selected.
Proof.
  intros Hnd Hsub. unfold isAllSelected, selectedCount, totalCount.
  set (ids := map AccountStore.acc_id accounts) in *.
  assert (selected ⊆ list_to_set ids) as Hsub'.
  { intros i Hi. apply elem_of_list_to_set. by apply Hsub. }
  assert (size (list_to_set ids : gset string) = length accounts) as Hsize.
  { rewrite size_list_to_set by done. subst ids. by rewrite length_map. }
  rewrite andb_true_iff, Nat.eqb_eq, Nat.ltb_lt. split.
  - intros [Hcount Hpos]. split; [by destruct accounts; simpl in Hpos; try lia|].
    intros a Ha.
    assert (selected = list_to_set ids) as ->.
    { apply set_subseteq_size_eq; [done|lia]. }
    apply elem_of_list_to_set. subst ids. apply list_elem_of_fmap. by exists a.
  - intros [Hne Hall].
    assert (selected = list_to_set ids) as ->.
    { apply set_eq. intros i. split; [apply Hsub'|].
      intros Hi. apply elem_of_list_to_set in Hi. subst ids.
      apply list_elem_of_fmap in Hi as (a & -> & Ha). by apply Hall. }
    split; [done|]. destruct accounts; [done|simpl; lia].
Qed.

End BatchBar.

Lemma isAllSelected_by_count_witness :
  let a := AccountStore.mkAccount "A" "first" "active" in
  let b := AccountStore.mkAccount "B" "second" "active" in
  let selected : gset string := {[ "A"; "B" ]} in
  (NoDup (map AccountStore.acc_id [a; b])
   ∧ ∀ i, i ∈ selected → i ∈ map AccountStore.acc_id [a; b])
  ∧ AccountBatchActionBar.isAllSelected selected [a; b] = true.
Proof.
  intros a b selected.
  assert (NoDup (map AccountStore.acc_id [a; b])) as Hnd.
  { simpl. apply NoDup_cons. split.
    - intros Hin. apply list_elem_of_singleton in Hin. discriminate.
    - apply NoDup_singleton. }
  assert (∀ i, i ∈ selected → i ∈ map AccountStore.acc_id [a; b]) as Hsub.
  { intros i Hi. apply elem_of_union in Hi as [Hi|Hi];
      apply elem_of_singleton in Hi; subst i; simpl.
    - by left.
    - right. by left. }
  split; [by split|].
  apply (isAllSelected_by_count selected [a; b] Hnd Hsub). split; [done|].
  intros x Hx. apply elem_of_cons in Hx as [->|Hx].
  - apply elem_of_union. left. by apply elem_of_singleton.
  - apply list_elem_of_singleton in Hx. subst x.
    apply elem_of_union. right. by apply elem_of_singleton.
Defined.

(** A selected id that belongs to no account (an account deleted since)
    makes the count lie: "all selected" although account B is not. *)
Example isAllSelected_stale_id :
  let a := AccountStore.mkAccount "A" "first" "active" in
  let b := AccountStore.mkAccount "B" "second" "active" in
  let selected : gset string := {[ "A"; "Z" ]} in
  AccountBatchActionBar.isAllSelected selected [a; b] = true
  ∧ bool_decide ("B" ∈ selected) = false.
Proof. vm_compute. by split. Qed.

Section BuildConfig.
Import ViteConfig.

(** X23. The build switches as a whole: the transport alias, the platform
    alias and the dev-server proxy are the web ones exactly when
    VITE_PLATFORM is "web"; unset, or set to anything else, all three are
    the Tauri ones (no proxy). *)
Theorem build_platform_switch VITE_PLATFORM :
  (VITE_PLATFORM = Some "web" →
   transportImpl VITE_PLATFORM = "./src/services/transport/http.transport.ts"
   ∧ platformImpl VITE_PLATFORM = "./src/lib/platform.web.ts"
   ∧ proxy VITE_PLATFORM = Some ("/api", "http://localhost:8080"))
  ∧ (VITE_PLATFORM ≠ Some "web" →
     transportImpl VITE_PLATFORM = "./src/services/transport/tauri.transport.ts"
     ∧ platformImpl VITE_PLATFORM = "./src/lib/platform.tauri.ts"
     ∧ proxy VITE_PLATFORM = None).
Proof.
  split.
  - by intros ->.
  - intros Hne. unfold transportImpl, platformImpl, proxy, platform.
    destruct VITE_PLATFORM as [v|]; simpl; [|done].
    destruct (String.eqb_spec v "web") as [->|_]; done.
Qed.

End BuildConfig.
